(** * English -> Bengali dictionary: the search history and the search
      orchestration of [App]

    A shallow embedding of the top-level component of the application
    (the [App] function component, [constants.ts] and [types.ts]):
    the history load effect, [updateSearchHistory], [handleSearch] and
    [handleClearHistory], together with the parts of the browser they
    touch ([localStorage], [console.error], [JSON], [String.prototype]).

    JavaScript values are kept as they are at run time: the type
    annotations of the source are erased, so the history held by the
    component is a [JSValue], and a well typed history is the array of
    strings [hist h]. *)

From Stdlib Require Import ZArith Ascii String.
From stdpp Require Import base option list strings gmap.

Local Open Scope string_scope.
Local Open Scope nat_scope.
Set Warnings "-register-all".

(** ** Values, thrown values and completions *)

(** The values [JSON.parse] can produce. *)
Inductive JSValue : Type :=
  | JNull
  | JBool (b : bool)
  | JNum (n : Z)
  | JStr (s : string)
  | JArr (elements : list JSValue)
  | JObj (members : list (string * JSValue)).

(** What a [throw] carries: an object for which [instanceof Error]
    holds (with its [name] and [message]), or any other value. *)
Inductive Thrown : Type :=
  | ErrorObject (name message : string)
  | ThrownValue (v : JSValue).

(** The outcome of running a piece of code. *)
Inductive Completion (A : Type) : Type :=
  | Normal (a : A)
  | Throw (e : Thrown).
Arguments Normal {A} a.
Arguments Throw {A} e.

(** [types.ts]: [TranslationEntry]. *)
Record TranslationEntry : Type := {
  englishWord : string;
  bengaliWord : string;
  partOfSpeech : string;
  pronunciation : option string;
  englishExample : option string;
  bengaliExample : option string;
  synonyms : option (list string);
  antonyms : option (list string)
}.

(** ** The run-time library

    The built-in functions the component calls.  They are parameters of
    the development: every general theorem holds for any behaviour of
    [trim], [toLowerCase] and [JSON]; module [Latin1] below gives the
    instance used to evaluate the scenarios. *)
Class Runtime : Type := {
  trim : string → string;
  toLowerCase : string → string;
  JSON_parse : string → Completion JSValue;
  JSON_stringify : JSValue → string
}.

(** ** [constants.ts] *)

Definition LOCAL_STORAGE_HISTORY_KEY : string := "englishBengaliSearchHistory".
Definition MAX_HISTORY_ITEMS : nat := 10.

(** ** The browser: [localStorage] and the console

    A storage area holds string items.  Every access raises a
    [SecurityError] when the user agent denies storage to the page, and
    [setItem] raises a [QuotaExceededError] when the new contents would
    not fit. *)
Record Storage : Type := {
  items : gmap string string;
  denied : bool;
  quota : nat
}.

Definition usage (m : gmap string string) : nat :=
  map_fold (λ k v acc, String.length k + String.length v + acc) 0 m.

Definition SecurityError : Thrown :=
  ErrorObject "SecurityError" "The operation is insecure.".
Definition QuotaExceededError : Thrown :=
  ErrorObject "QuotaExceededError" "The quota has been exceeded.".
Definition TypeError (message : string) : Thrown :=
  ErrorObject "TypeError" message.

Definition Storage_getItem (key : string) (ls : Storage)
  : Completion (option string) :=
  if denied ls then Throw SecurityError else Normal (items ls !! key).

Definition Storage_setItem (key value : string) (ls : Storage)
  : Completion Storage :=
  if denied ls then Throw SecurityError
  else
    let items' := <[key := value]> (items ls) in
    if decide (usage items' ≤ quota ls)
    then Normal {| items := items'; denied := denied ls; quota := quota ls |}
    else Throw QuotaExceededError.

Definition Storage_removeItem (key : string) (ls : Storage)
  : Completion Storage :=
  if denied ls then Throw SecurityError
  else Normal {| items := delete key (items ls);
                 denied := denied ls; quota := quota ls |}.

(** ** The component state ([useState] cells of [App]) *)
Record AppState : Type := {
  searchTerm : string;
  translations : option (list TranslationEntry);
  isLoading : bool;
  error : option string;
  searchHistory : JSValue
}.

(** A well typed history: an array of strings. *)
Definition hist (h : list string) : JSValue := JArr (JStr <$> h).

Definition as_string (v : JSValue) : option string :=
  match v with JStr s => Some s | _ => None end.

(** The strings of [v] when [v] is an array whose elements are all
    strings: the values on which [prevHistory.filter(item =>
    item.toLowerCase() ...)] does not raise a [TypeError]. *)
Definition as_strings (v : JSValue) : option (list string) :=
  match v with
  | JArr elements => mapM as_string elements
  | _ => None
  end.

(** The [TypeError] that [prevHistory.filter(item => item.toLowerCase()
    ...)] raises on any other value (the wording is the engine's). *)
Definition filter_TypeError (prevHistory : JSValue) : Thrown :=
  match prevHistory with
  | JNull => TypeError "Cannot read properties of null (reading 'filter')"
  | JArr _ => TypeError "item.toLowerCase is not a function"
  | _ => TypeError "prevHistory.filter is not a function"
  end.

(** The initial values passed to [useState]. *)
Definition initialState : AppState := {|
  searchTerm := EmptyString;
  translations := None;
  isLoading := false;
  error := None;
  searchHistory := hist []
|}.

(** The component together with its environment. *)
Record World : Type := {
  app : AppState;
  localStorage : Storage;
  console : list (string * Thrown)
}.

(** ** Effectful code: state and exceptions *)

Definition M (A : Type) : Type := World → Completion A * World.

Definition M_ret {A} (a : A) : M A := λ w, (Normal a, w).

Definition M_bind {A B} (f : A → M B) (m : M A) : M B :=
  λ w, match m w with
       | (Normal a, w') => f a w'
       | (Throw e, w') => (Throw e, w')
       end.

#[global] Instance M_mret : MRet M := @M_ret.
#[global] Instance M_mbind : MBind M := @M_bind.

Definition throw {A} (e : Thrown) : M A := λ w, (Throw e, w).

(** [try { body } catch (e) { handler e }] *)
Definition try_catch {A} (body : M A) (handler : Thrown → M A) : M A :=
  λ w, match body w with
       | (Normal a, w') => (Normal a, w')
       | (Throw e, w') => handler e w'
       end.

(** [try { body } finally { final }] *)
Definition try_finally {A} (body : M A) (final : M unit) : M A :=
  λ w, match body w with
       | (c, w') =>
           match final w' with
           | (Normal _, w'') => (c, w'')
           | (Throw e, w'') => (Throw e, w'')
           end
       end.

(** The world a computation leaves behind. *)
Definition exec {A} (m : M A) (w : World) : World := snd (m w).

(** *** State setters and environment calls *)

Definition modify_app (f : AppState → AppState) : M unit :=
  λ w, (Normal tt,
        {| app := f (app w); localStorage := localStorage w;
           console := console w |}).

Definition setSearchTerm (v : string) : M unit :=
  modify_app (λ s, {| searchTerm := v; translations := translations s;
                      isLoading := isLoading s; error := error s;
                      searchHistory := searchHistory s |}).

Definition setTranslations (v : option (list TranslationEntry)) : M unit :=
  modify_app (λ s, {| searchTerm := searchTerm s; translations := v;
                      isLoading := isLoading s; error := error s;
                      searchHistory := searchHistory s |}).

Definition setIsLoading (v : bool) : M unit :=
  modify_app (λ s, {| searchTerm := searchTerm s;
                      translations := translations s;
                      isLoading := v; error := error s;
                      searchHistory := searchHistory s |}).

Definition setError (v : option string) : M unit :=
  modify_app (λ s, {| searchTerm := searchTerm s;
                      translations := translations s;
                      isLoading := isLoading s; error := v;
                      searchHistory := searchHistory s |}).

Definition setSearchHistory (v : JSValue) : M unit :=
  modify_app (λ s, {| searchTerm := searchTerm s;
                      translations := translations s;
                      isLoading := isLoading s; error := error s;
                      searchHistory := v |}).

Definition get_searchHistory : M JSValue :=
  λ w, (Normal (searchHistory (app w)), w).

Definition console_error (message : string) (e : Thrown) : M unit :=
  λ w, (Normal tt,
        {| app := app w; localStorage := localStorage w;
           console := console w ++ [(message, e)] |}).

Definition localStorage_getItem (key : string) : M (option string) :=
  λ w, (Storage_getItem key (localStorage w), w).

Definition with_storage (c : Completion Storage) : M unit :=
  λ w, match c with
       | Normal ls => (Normal tt, {| app := app w; localStorage := ls;
                                     console := console w |})
       | Throw e => (Throw e, w)
       end.

Definition localStorage_setItem (key value : string) : M unit :=
  λ w, with_storage (Storage_setItem key value (localStorage w)) w.

Definition localStorage_removeItem (key : string) : M unit :=
  λ w, with_storage (Storage_removeItem key (localStorage w)) w.

Definition complete {A} (c : Completion A) : M A := λ w, (c, w).

(** ** The component [App] *)

(** A suspended [async] function: finished, or waiting at
    [await fetchTranslations(word)] with the rest of the function as
    the continuation of the provider's outcome. *)
Inductive Async : Type :=
  | Finished
  | Await_fetchTranslations
      (word : string)
      (resume : Completion (list TranslationEntry) → M unit).

Section App.
Context `{Runtime}.

(** The load effect ([useEffect] with no dependencies: run once after
    the first render). *)
Definition loadHistory : M unit :=
  try_catch
    (storedHistory ← localStorage_getItem LOCAL_STORAGE_HISTORY_KEY;
     match storedHistory with
     | Some stored =>
         if decide (stored = EmptyString) then mret tt
         else parsed ← complete (JSON_parse stored);
              setSearchHistory parsed
     | None => mret tt
     end)
    (λ e,
       console_error "Failed to load search history from localStorage:" e;;
       setSearchHistory (hist [])).

(** The body of the state updater of [updateSearchHistory], on a
    history of strings. *)
Definition updatedHistory (termToAdd : string) (prevHistory : list string)
  : list string :=
  let lowercasedTermToAdd := toLowerCase termToAdd in
  let filteredHistory :=
    filter (λ item, toLowerCase item ≠ lowercasedTermToAdd) prevHistory in
  take MAX_HISTORY_ITEMS (termToAdd :: filteredHistory).

(** The state updater is applied at the call.  On a history of strings
    this is what React computes when it next renders.  On any other
    value the updater raises a [TypeError]; React reports it only when
    it renders, after the handler has gone on, whereas here it is
    raised at the call.  Every theorem below about a call that
    applies the updater is stated on histories of strings, where the
    updater does not raise. *)
Definition updateSearchHistory (newTerm : string) : M unit :=
  let termToAdd := trim newTerm in
  if decide (termToAdd = EmptyString) then mret tt
  else
    prev ← get_searchHistory;
    match as_strings prev with
    | None => throw (filter_TypeError prev)
    | Some prevHistory =>
        let updated := updatedHistory termToAdd prevHistory in
        try_catch
          (localStorage_setItem LOCAL_STORAGE_HISTORY_KEY
             (JSON_stringify (hist updated)))
          (λ e,
             console_error
               "Failed to save search history to localStorage:" e);;
        setSearchHistory (hist updated)
    end.

Definition dquote : string := String (ascii_of_nat 34) EmptyString.

Definition promptMessage : string := "Please enter a word to search.".

(** [`No translation found for "${trimmedTerm}". Try another word.`] *)
Definition notFoundMessage (trimmedTerm : string) : string :=
  "No translation found for " ++ dquote ++ trimmedTerm ++ dquote
    ++ ". Try another word.".

Definition unknownErrorMessage : string :=
  "An unknown error occurred. Please ensure your API key is set up correctly.".

(** [handleSearch] after [await fetchTranslations(trimmedTerm)]: the
    rest of the [try] block, the [catch] and the [finally]. *)
Definition handleSearch_resume (trimmedTerm : string)
    (outcome : Completion (list TranslationEntry)) : M unit :=
  try_finally
    (try_catch
       (results ← complete outcome;
        if decide (length results = 0) then
          setError (Some (notFoundMessage trimmedTerm));;
          setTranslations None
        else
          setTranslations (Some results))
       (λ err,
          console_error "Translation fetch error:" err;;
          setError (Some match err with
                         | ErrorObject _ message => message
                         | ThrownValue _ => unknownErrorMessage
                         end);;
          setTranslations None))
    (setIsLoading false).

Definition handleSearch (term : string) : M Async :=
  let trimmedTerm := trim term in
  if decide (trimmedTerm = EmptyString) then
    setError (Some promptMessage);;
    setTranslations None;;
    mret Finished
  else
    updateSearchHistory trimmedTerm;;
    setSearchTerm trimmedTerm;;
    setIsLoading true;;
    setError None;;
    setTranslations None;;
    mret (Await_fetchTranslations trimmedTerm
            (handleSearch_resume trimmedTerm)).

Definition handleClearHistory : M unit :=
  setSearchHistory (hist []);;
  try_catch
    (localStorage_removeItem LOCAL_STORAGE_HISTORY_KEY)
    (λ e,
       console_error "Failed to clear search history from localStorage:" e).

Definition handleHistoryItemClick (term : string) : M Async :=
  handleSearch term.

(** A search run to its end against a provider that answers the
    request with [outcome]. *)
Definition search (term : string)
    (outcome : Completion (list TranslationEntry)) : M unit :=
  pending ← handleSearch term;
  match pending with
  | Finished => mret tt
  | Await_fetchTranslations _ resume => resume outcome
  end.

End App.

(** ** A run-time library for strings of Latin-1 code units

    The characters of [string] are read as the code units U+0000 to
    U+00FF.  On such strings [trim] and [toLowerCase] are those of
    ECMAScript; [JSON] covers [null], booleans, integer numerals,
    strings, arrays and objects.  Numerals with a fraction or exponent
    part and [\u] escapes from U+0100 on have no value in this model:
    this instance rejects them, and no example uses them. *)
Module Latin1.

Definition code (c : ascii) : N := N_of_ascii c.

(** WhiteSpace and LineTerminator code points below U+0100:
    TAB, LF, VT, FF, CR, SP and NBSP. *)
Definition isWhiteSpace (c : ascii) : bool :=
  ((9 <=? code c) && (code c <=? 13) || (code c =? 32) || (code c =? 160))%N.

Fixpoint trimStart (s : string) : string :=
  match s with
  | String c s' => if isWhiteSpace c then trimStart s' else s
  | EmptyString => EmptyString
  end.

Fixpoint trimEnd (s : string) : string :=
  match s with
  | EmptyString => EmptyString
  | String c s' =>
      match trimEnd s' with
      | EmptyString =>
          if isWhiteSpace c then EmptyString else String c EmptyString
      | r => String c r
      end
  end.

Definition trim (s : string) : string := trimEnd (trimStart s).

(** The strings that are empty or made of white space only. *)
Definition blank (s : string) : Prop :=
  Forall (λ c, isWhiteSpace c = true) (list_ascii_of_string s).

(** A-Z, and the capital letters U+00C0 to U+00DE but the
    multiplication sign U+00D7, map to the letter 32 places on. *)
Definition lower (c : ascii) : ascii :=
  if ((65 <=? code c) && (code c <=? 90)
      || (192 <=? code c) && (code c <=? 222) && negb (code c =? 215))%N
  then ascii_of_N (code c + 32)
  else c.

Fixpoint toLowerCase (s : string) : string :=
  match s with
  | EmptyString => EmptyString
  | String c s' => String (lower c) (toLowerCase s')
  end.

(** *** JSON.stringify *)

Definition hexdigit (n : N) : ascii :=
  if (n <? 10)%N then ascii_of_N (48 + n) else ascii_of_N (87 + n).

Definition backslash : ascii := ascii_of_nat 92.
Definition quote : ascii := ascii_of_nat 34.

Definition escape (c : ascii) : string :=
  if (code c =? 34)%N then String backslash (String quote EmptyString)
  else if (code c =? 92)%N then String backslash (String backslash EmptyString)
  else if (code c =? 8)%N then String backslash "b"
  else if (code c =? 12)%N then String backslash "f"
  else if (code c =? 10)%N then String backslash "n"
  else if (code c =? 13)%N then String backslash "r"
  else if (code c =? 9)%N then String backslash "t"
  else if (code c <? 32)%N then
    String backslash
      ("u00" ++ String (hexdigit (code c / 16))
                  (String (hexdigit (code c mod 16)) EmptyString))
  else String c EmptyString.

Fixpoint escape_all (s : string) : string :=
  match s with
  | EmptyString => EmptyString
  | String c s' => escape c ++ escape_all s'
  end.

Definition quoted (s : string) : string :=
  String quote (escape_all s ++ String quote EmptyString).

Fixpoint nat_digits (fuel n : nat) (acc : string) : string :=
  match fuel with
  | O => acc
  | S fuel' =>
      let acc' := String (ascii_of_nat (48 + n mod 10)) acc in
      if decide (n < 10)%nat then acc' else nat_digits fuel' (n / 10) acc'
  end.

Definition numeral (z : Z) : string :=
  let n := Z.to_nat (Z.abs z) in
  (if decide (z < 0)%Z then "-" else EmptyString)
    ++ nat_digits (S n) n EmptyString.

Definition joined (parts : list string) : string :=
  match parts with
  | [] => EmptyString
  | p :: ps => foldl (λ acc q, acc ++ "," ++ q) p ps
  end.

Fixpoint JSON_stringify (v : JSValue) : string :=
  match v with
  | JNull => "null"
  | JBool true => "true"
  | JBool false => "false"
  | JNum n => numeral n
  | JStr s => quoted s
  | JArr elements => "[" ++ joined (map JSON_stringify elements) ++ "]"
  | JObj members =>
      "{" ++ joined (map (λ kv, quoted (fst kv) ++ ":"
                                  ++ JSON_stringify (snd kv)) members)
          ++ "}"
  end.

(** *** JSON.parse *)

Definition has_code (c : ascii) (n : N) : bool := (code c =? n)%N.

Definition isJSONSpace (c : ascii) : bool :=
  has_code c 32 || has_code c 9 || has_code c 10 || has_code c 13.

Fixpoint skip (s : string) : string :=
  match s with
  | String c s' => if isJSONSpace c then skip s' else s
  | EmptyString => EmptyString
  end.

Definition digit (c : ascii) : option Z :=
  if ((48 <=? code c) && (code c <=? 57))%N
  then Some (Z.of_N (code c - 48)) else None.

Definition hexval (c : ascii) : option N :=
  if ((48 <=? code c) && (code c <=? 57))%N then Some (code c - 48)%N
  else if ((97 <=? code c) && (code c <=? 102))%N then Some (code c - 87)%N
  else if ((65 <=? code c) && (code c <=? 70))%N then Some (code c - 55)%N
  else None.

(** The characters of a string literal after its opening quote, and
    the text after its closing quote. *)
Fixpoint string_body (s : string) : option (string * string) :=
  match s with
  | EmptyString => None
  | String c s' =>
      if has_code c 34 then Some (EmptyString, s')
      else if has_code c 92 then
        match s' with
        | String e s'' =>
            let plain (r : N) :=
              '(body, rest) ← string_body s'';
              Some (String (ascii_of_N r) body, rest) in
            if has_code e 34 then plain 34%N
            else if has_code e 92 then plain 92%N
            else if has_code e 47 then plain 47%N
            else if has_code e 98 then plain 8%N
            else if has_code e 102 then plain 12%N
            else if has_code e 110 then plain 10%N
            else if has_code e 114 then plain 13%N
            else if has_code e 116 then plain 9%N
            else if has_code e 117 then
              match s'' with
              | String h1 (String h2 (String h3 (String h4 s5))) =>
                  a ← hexval h1; b ← hexval h2;
                  c ← hexval h3; d ← hexval h4;
                  if ((a =? 0) && (b =? 0))%N then
                    '(body, rest) ← string_body s5;
                    Some (String (ascii_of_N (16 * c + d)) body, rest)
                  else None
              | _ => None
              end
            else None
        | EmptyString => None
        end
      else if (code c <? 32)%N then None
      else '(body, rest) ← string_body s';
           Some (String c body, rest)
  end.

Fixpoint digits (acc : Z) (s : string) : Z * string :=
  match s with
  | String c s' =>
      match digit c with
      | Some d => digits (10 * acc + d)%Z s'
      | None => (acc, s)
      end
  | EmptyString => (acc, s)
  end.

Definition integer_end (n : Z) (rest : string) : option (Z * string) :=
  match rest with
  | String c _ =>
      if has_code c 46 || has_code c 101 || has_code c 69 then None else Some (n, rest)
  | EmptyString => Some (n, rest)
  end.

Definition unsigned (s : string) : option (Z * string) :=
  match s with
  | String c s' =>
      match digit c with
      | Some d =>
          if decide (d = 0)%Z then integer_end 0%Z s'
          else let '(n, rest) := digits d s' in integer_end n rest
      | None => None
      end
  | EmptyString => None
  end.

Definition number (s : string) : option (Z * string) :=
  match s with
  | String c s' =>
      if has_code c 45 then '(n, rest) ← unsigned s'; Some (- n, rest)%Z
      else unsigned s
  | EmptyString => None
  end.

Fixpoint strip (prefix s : string) : option string :=
  match prefix, s with
  | EmptyString, _ => Some s
  | String p prefix', String c s' =>
      if Ascii.eqb p c then strip prefix' s' else None
  | String _ _, EmptyString => None
  end.

Fixpoint value (fuel : nat) (s : string) : option (JSValue * string) :=
  match fuel with
  | O => None
  | S fuel' =>
      match skip s with
      | EmptyString => None
      | String c rest =>
          if has_code c 91 then
            match skip rest with
            | String c' rest' =>
                if has_code c' 93 then Some (JArr [], rest')
                else '(vs, rest'') ← elements fuel' rest;
                     Some (JArr vs, rest'')
            | EmptyString => None
            end
          else if has_code c 123 then
            match skip rest with
            | String c' rest' =>
                if has_code c' 125 then Some (JObj [], rest')
                else '(kvs, rest'') ← members fuel' rest;
                     Some (JObj kvs, rest'')
            | EmptyString => None
            end
          else if has_code c 34 then
            '(str, rest') ← string_body rest; Some (JStr str, rest')
          else if has_code c 110 then
            rest' ← strip "ull" rest; Some (JNull, rest')
          else if has_code c 116 then
            rest' ← strip "rue" rest; Some (JBool true, rest')
          else if has_code c 102 then
            rest' ← strip "alse" rest; Some (JBool false, rest')
          else '(n, rest') ← number (String c rest); Some (JNum n, rest')
      end
  end
with elements (fuel : nat) (s : string) : option (list JSValue * string) :=
  match fuel with
  | O => None
  | S fuel' =>
      '(v, rest) ← value fuel' s;
      match skip rest with
      | String c rest' =>
          if has_code c 44 then
            '(vs, rest'') ← elements fuel' rest'; Some (v :: vs, rest'')
          else if has_code c 93 then Some ([v], rest')
          else None
      | EmptyString => None
      end
  end
with members (fuel : nat) (s : string)
  : option (list (string * JSValue) * string) :=
  match fuel with
  | O => None
  | S fuel' =>
      match skip s with
      | String q s1 =>
          if has_code q 34 then
            '(key, s2) ← string_body s1;
            match skip s2 with
            | String colon s3 =>
                if has_code colon 58 then
                  '(v, s4) ← value fuel' s3;
                  match skip s4 with
                  | String c s5 =>
                      if has_code c 44 then
                        '(kvs, s6) ← members fuel' s5;
                        Some ((key, v) :: kvs, s6)
                      else if has_code c 125 then Some ([(key, v)], s5)
                      else None
                  | EmptyString => None
                  end
                else None
            | EmptyString => None
            end
          else None
      | EmptyString => None
      end
  end.

Definition SyntaxError : Thrown :=
  ErrorObject "SyntaxError" "Unexpected token in JSON".

Definition JSON_parse (text : string) : Completion JSValue :=
  match value (2 * String.length text + 2) text with
  | Some (v, rest) =>
      match skip rest with
      | EmptyString => Normal v
      | String _ _ => Throw SyntaxError
      end
  | None => Throw SyntaxError
  end.

Definition runtime : Runtime :=
  Build_Runtime trim toLowerCase JSON_parse JSON_stringify.

End Latin1.

(** ** The History Manager and the orchestration, as the specification
       names them *)

(** [record(term)] is [updateSearchHistory], [clear()] is
    [handleClearHistory] and [load()] is the load effect. *)
Inductive Operation : Type :=
  | record (term : string)
  | clear.

Definition history (w : World) : JSValue := searchHistory (app w).

(** The history as a list of strings, when it is one. *)
Definition entries (w : World) : option (list string) :=
  as_strings (history w).

(** First run of the application over the storage area [ls]. *)
Definition initialWorld (ls : Storage) : World :=
  {| app := initialState; localStorage := ls; console := [] |}.

(** A restart: the component state is created anew, the storage area
    is the one the previous run left. *)
Definition restart (w : World) : World := initialWorld (localStorage w).

(** A restart after which access to the storage area is denied
    ([blocked]) or granted, whatever it was before. *)
Definition restart_with (blocked : bool) (w : World) : World :=
  initialWorld {| items := items (localStorage w);
                  denied := blocked;
                  quota := quota (localStorage w) |}.

(** The world in which the component holds the history [h]. *)
Definition holding (h : list string) (w : World) : World :=
  exec (setSearchHistory (hist h)) w.

Section HistoryManager.
Context `{Runtime}.

Definition perform (op : Operation) : M unit :=
  match op with
  | record term => updateSearchHistory term
  | clear => handleClearHistory
  end.

Definition run (ops : list Operation) (w : World) : World :=
  foldl (λ w op, exec (perform op) w) w ops.

(** [a] and [b] are equal ignoring case. *)
Definition same_ignoring_case (a b : string) : Prop :=
  toLowerCase a = toLowerCase b.

#[global] Instance same_ignoring_case_dec (a b : string) :
  Decision (same_ignoring_case a b).
Proof. unfold same_ignoring_case. apply _. Defined.

(** The terms in use after [ops], the latest first: what was recorded
    since the last [clear], trimmed, blank terms left out. *)
Definition used_after (used : list string) (op : Operation) : list string :=
  match op with
  | record term =>
      if decide (trim term = EmptyString) then used else trim term :: used
  | clear => []
  end.

Definition uses (ops : list Operation) : list string :=
  foldl used_after [] ops.

(** Recency order, following the words of the specification: of a
    list of uses, latest first, keep each term at its latest use and
    drop every earlier use that equals it ignoring case. *)
Fixpoint latest_first (used : list string) : list string :=
  match used with
  | [] => []
  | term :: earlier =>
      term :: filter (λ t, ¬ same_ignoring_case t term) (latest_first earlier)
  end.

(** The invariant of the search history. *)
Definition no_duplicates_ignoring_case (h : list string) : Prop :=
  NoDup (toLowerCase <$> h).

Definition history_invariant (used h : list string) : Prop :=
  no_duplicates_ignoring_case h
  ∧ length h ≤ MAX_HISTORY_ITEMS
  ∧ h = take MAX_HISTORY_ITEMS (latest_first used).

(** "[record(T)] followed by [record(T')] yields a history of the same
    length as a single [record(T)], with [T'] first", read on every
    term. *)
Definition record_again_same_length (T T' : string) (w : World) : Prop :=
  ∃ h1 h2,
    entries (run [record T] w) = Some h1
    ∧ entries (run [record T; record T'] w) = Some h2
    ∧ length h2 = length h1
    ∧ head h2 = Some T'.

(** The world [handleSearch] leaves when its search has settled with
    the message [message], after the history update left [w0]. *)
Definition settled (term message : string) (h : list string)
    (w0 : World) (log : list (string * Thrown)) : World :=
  {| app := {| searchTerm := term;
               translations := None;
               isLoading := false;
               error := Some message;
               searchHistory := hist (updatedHistory term h) |};
     localStorage := localStorage w0;
     console := (console w0 ++ log)%list |}.

(** What the load effect finds under the history key. *)
Inductive Stored : Type :=
  | ReadFailed (e : Thrown)
  | NothingStored
  | ParseFailed (e : Thrown)
  | Parsed (v : JSValue).

Definition stored_history (w : World) : Stored :=
  match Storage_getItem LOCAL_STORAGE_HISTORY_KEY (localStorage w) with
  | Throw e => ReadFailed e
  | Normal None => NothingStored
  | Normal (Some stored) =>
      if decide (stored = EmptyString) then NothingStored
      else match JSON_parse stored with
           | Throw e => ParseFailed e
           | Normal v => Parsed v
           end
  end.

End HistoryManager.

(** Storage areas for the examples. *)
Definition emptyStorage : Storage :=
  {| items := ∅; denied := false; quota := 4096 |}.

Definition storing (value : string) (blocked : bool) : Storage :=
  {| items := {[ LOCAL_STORAGE_HISTORY_KEY := value ]};
     denied := blocked; quota := 4096 |}.

Definition elevenTerms : list string :=
  ["k"; "j"; "i"; "h"; "g"; "f"; "e"; "d"; "c"; "b"; "a"].

Definition tenTerms : list string :=
  ["j"; "i"; "h"; "g"; "f"; "e"; "d"; "c"; "b"; "a"].

(** ** The main area of the page

    The children of [main] below the search bar: the spinner, the
    error message, the results and the invitation to enter a word.  A
    string is falsy when it is empty, [null] is falsy, an array is
    truthy. *)
Record MainView : Type := {
  spinner : bool;
  errorPanel : option string;
  resultsPanel : option (string * list TranslationEntry);
  introPanel : bool
}.

Definition truthy (s : string) : bool :=
  if decide (s = EmptyString) then false else true.

Definition renderMain (s : AppState) : MainView :=
  let hasError := match error s with Some m => truthy m | None => false end in
  let hasTranslations :=
    match translations s with Some _ => true | None => false end in
  {| spinner := isLoading s;
     errorPanel :=
       match error s with
       | Some m => if truthy m then Some m else None
       | None => None
       end;
     resultsPanel :=
       if negb (isLoading s) && negb hasError then
         match translations s with
         | Some results => Some (searchTerm s, results)
         | None => None
         end
       else None;
     introPanel :=
       negb (isLoading s) && negb hasError && negb hasTranslations
       && negb (truthy (searchTerm s)) |}.

(** Nothing is shown in the main area. *)
Definition blankView : MainView :=
  {| spinner := false; errorPanel := None; resultsPanel := None;
     introPanel := false |}.

(** Only the spinner, only an error message, only the results. *)
Definition loadingView : MainView :=
  {| spinner := true; errorPanel := None; resultsPanel := None;
     introPanel := false |}.

Definition errorView (message : string) : MainView :=
  {| spinner := false; errorPanel := Some message; resultsPanel := None;
     introPanel := false |}.

Definition resultsView (term : string) (results : list TranslationEntry)
  : MainView :=
  {| spinner := false; errorPanel := None;
     resultsPanel := Some (term, results); introPanel := false |}.

(** ** The running page: handlers called by the user, requests settled
       by the provider

    The requests in flight are kept as the continuations of the
    suspended [handleSearch] calls, oldest first.  An exception that
    leaves a handler is not caught by anyone: the world stays as the
    handler left it. *)
Record System : Type := {
  world : World;
  pending : list (Completion (list TranslationEntry) → M unit)
}.

Inductive Event : Type :=
  | Search (term : string)
  | HistoryItemClick (term : string)
  | ClearHistory
  | Settle (i : nat) (outcome : Completion (list TranslationEntry)).

Section Page.
Context `{Runtime}.

Definition start (handler : M Async) (s : System) : System :=
  match handler (world s) with
  | (Normal (Await_fetchTranslations _ resume), w') =>
      {| world := w'; pending := pending s ++ [resume] |}
  | (_, w') => {| world := w'; pending := pending s |}
  end.

Definition step (s : System) (e : Event) : System :=
  match e with
  | Search term => start (handleSearch term) s
  | HistoryItemClick term => start (handleHistoryItemClick term) s
  | ClearHistory =>
      {| world := exec handleClearHistory (world s); pending := pending s |}
  | Settle i outcome =>
      match pending s !! i with
      | Some resume =>
          {| world := exec (resume outcome) (world s);
             pending := delete i (pending s) |}
      | None => s
      end
  end.

Definition play (events : list Event) (s : System) : System :=
  foldl step s events.

(** The page after its first render and the load effect. *)
Definition mounted (ls : Storage) : System :=
  {| world := exec loadHistory (initialWorld ls); pending := [] |}.

(** Whether the handler called for [e] returns to its caller. *)
Definition completes (s : System) (e : Event) : Prop :=
  match e with
  | Search term => ∃ a, fst (handleSearch term (world s)) = Normal a
  | HistoryItemClick term =>
      ∃ a, fst (handleHistoryItemClick term (world s)) = Normal a
  | ClearHistory => fst (handleClearHistory (world s)) = Normal tt
  | Settle i outcome =>
      match pending s !! i with
      | Some resume => fst (resume outcome (world s)) = Normal tt
      | None => True
      end
  end.

Fixpoint all_complete (events : list Event) (s : System) : Prop :=
  match events with
  | [] => True
  | e :: later => completes s e ∧ all_complete later (step s e)
  end.

(** The requests in flight are suspended [handleSearch] calls. *)
Definition suspended_searches (s : System) : Prop :=
  Forall (λ resume, ∃ word, resume = handleSearch_resume word) (pending s).

(** A history of strings within the invariant. *)
Definition valid_history (w : World) : Prop :=
  ∃ h, history w = hist h
       ∧ no_duplicates_ignoring_case h
       ∧ length h ≤ MAX_HISTORY_ITEMS.

(** What a page never changes in the storage area: the items under
    other keys, and the limits of the area. *)
Definition same_but_history (ls ls' : Storage) : Prop :=
  denied ls' = denied ls
  ∧ quota ls' = quota ls
  ∧ ∀ key, key ≠ LOCAL_STORAGE_HISTORY_KEY →
           items ls' !! key = items ls !! key.

End Page.

(** A storage area that another script of the page uses too. *)
Definition sharedStorage : Storage :=
  {| items := <["theme" := "dark"]> {[ LOCAL_STORAGE_HISTORY_KEY := "[]" ]};
     denied := false; quota := 4096 |}.

(** A storage area too small for any history. *)
Definition fullStorage : Storage :=
  {| items := ∅; denied := false; quota := 8 |}.

Definition sampleEntry : TranslationEntry :=
  {| englishWord := "water"; bengaliWord := "pani"; partOfSpeech := "noun";
     pronunciation := None; englishExample := None; bengaliExample := None;
     synonyms := None; antonyms := None |}.

(** ** Basic facts about the embedding *)

Lemma as_strings_hist (h : list string) : as_strings (hist h) = Some h.
Proof.
  unfold as_strings, hist. induction h as [|s h IH]; [done|].
  cbn. cbn in IH. by rewrite IH.
Qed.

Lemma entries_hist (w : World) (h : list string) :
  history w = hist h → entries w = Some h.
Proof. unfold entries. intros ->. apply as_strings_hist. Qed.

(** Unfolding of the monad and of the environment calls. *)
Ltac run_M :=
  unfold mbind, mret, M_mbind, M_mret, M_bind, M_ret, try_catch, try_finally,
    throw, complete, exec, get_searchHistory, setSearchHistory,
    setSearchTerm, setTranslations, setIsLoading, setError, modify_app,
    console_error, localStorage_getItem, localStorage_setItem,
    localStorage_removeItem, with_storage, history in *;
  cbn [fst snd app localStorage console searchTerm translations isLoading
       error searchHistory] in *.

Section Facts.
Context `{Runtime}.

(** [updateSearchHistory] on a blank term: nothing happens. *)
Lemma updateSearchHistory_blank (term : string) (w : World) :
  trim term = EmptyString → updateSearchHistory term w = (Normal tt, w).
Proof.
  intros E. unfold updateSearchHistory. rewrite E.
  by destruct (decide _).
Qed.

(** [updateSearchHistory] on a history of strings: it returns, the
    history becomes [updatedHistory], the other state cells stay. *)
Lemma updateSearchHistory_run (term : string) (w : World) (h : list string) :
  history w = hist h → trim term ≠ EmptyString →
  let updated := updatedHistory (trim term) h in
  let saved :=
    Storage_setItem LOCAL_STORAGE_HISTORY_KEY (JSON_stringify (hist updated))
      (localStorage w) in
  updateSearchHistory term w =
  (Normal tt,
   {| app := {| searchTerm := searchTerm (app w);
                translations := translations (app w);
                isLoading := isLoading (app w);
                error := error (app w);
                searchHistory := hist updated |};
      localStorage :=
        match saved with Normal ls => ls | Throw _ => localStorage w end;
      console :=
        match saved with
        | Normal _ => console w
        | Throw e =>
            (console w
             ++ [("Failed to save search history to localStorage:", e)])%list
        end |}).
Proof.
  intros Hh Ht updated saved. subst updated saved.
  unfold updateSearchHistory.
  destruct (decide _) as [|_]; [done|].
  run_M. rewrite Hh, as_strings_hist.
  by destruct (Storage_setItem _ _ _).
Qed.

Lemma updateSearchHistory_typed (term : string) (w : World) (h : list string) :
  history w = hist h → trim term ≠ EmptyString →
  ∃ ls log,
    updateSearchHistory term w =
    (Normal tt,
     {| app := {| searchTerm := searchTerm (app w);
                  translations := translations (app w);
                  isLoading := isLoading (app w);
                  error := error (app w);
                  searchHistory := hist (updatedHistory (trim term) h) |};
        localStorage := ls; console := log |}).
Proof.
  intros Hh Ht. rewrite (updateSearchHistory_run term w h Hh Ht). eauto.
Qed.

Lemma history_record (term : string) (w : World) (h : list string) :
  history w = hist h → trim term ≠ EmptyString →
  history (exec (updateSearchHistory term) w)
  = hist (updatedHistory (trim term) h).
Proof.
  intros Hh Ht.
  destruct (updateSearchHistory_typed term w h Hh Ht) as (ls & log & E).
  unfold exec, history. by rewrite E.
Qed.

Lemma history_clear (w : World) :
  history (exec handleClearHistory w) = hist [].
Proof.
  unfold handleClearHistory. run_M. unfold Storage_removeItem.
  by destruct (denied (localStorage w)).
Qed.

End Facts.

(** ** The bounded, deduplicated, recency-ordered list *)

Section Lists.
Context `{Runtime}.

Lemma updatedHistory_cons (term : string) (h : list string) :
  updatedHistory term h
  = term :: take 9 (filter (λ t, ¬ same_ignoring_case t term) h).
Proof.
  unfold updatedHistory, MAX_HISTORY_ITEMS. cbn [take].
  by rewrite (list_filter_iff _ (λ t, ¬ same_ignoring_case t term)).
Qed.

Lemma length_updatedHistory (term : string) (h : list string) :
  length (updatedHistory term h) ≤ MAX_HISTORY_ITEMS.
Proof. unfold updatedHistory. rewrite length_take. lia. Qed.

Lemma filter_none_same (k : string) (l : list string) :
  toLowerCase k ∉ toLowerCase <$> l →
  filter (λ t, ¬ same_ignoring_case t k) l = l.
Proof.
  induction l as [|x l IH]; intros Hk; [done|].
  rewrite fmap_cons, not_elem_of_cons in Hk. destruct Hk as [Hx Hl].
  rewrite filter_cons_True; [by rewrite IH|].
  unfold same_ignoring_case. congruence.
Qed.

(** Removing the entries equal to [k] from a list without duplicates
    removes at most one of them, so that one more entry of the list is
    enough to know the first [n] entries of the result. *)
Lemma take_filter_take (k : string) (n : nat) (l : list string) :
  no_duplicates_ignoring_case l →
  take n (filter (λ t, ¬ same_ignoring_case t k) (take (S n) l))
  = take n (filter (λ t, ¬ same_ignoring_case t k) l).
Proof.
  unfold no_duplicates_ignoring_case. revert n.
  induction l as [|x l IH]; intros n Hnd; [done|].
  rewrite fmap_cons, NoDup_cons in Hnd. destruct Hnd as [Hx Hnd].
  cbn [take].
  destruct (decide (same_ignoring_case x k)) as [Hs|Hs].
  - rewrite !filter_cons_False by (by intros Hn; apply Hn).
    unfold same_ignoring_case in Hs. rewrite Hs in Hx.
    rewrite (filter_none_same k l Hx).
    rewrite filter_none_same.
    + rewrite take_take. f_equal. lia.
    + rewrite fmap_take. intros Hin. apply Hx.
      eapply elem_of_sublist; [done|apply sublist_take].
  - rewrite !filter_cons_True by done.
    destruct n as [|n]; [done|]. cbn [take]. f_equal. by apply IH.
Qed.

Lemma no_duplicates_filter (P : string → Prop) `{!∀ x, Decision (P x)}
    (l : list string) :
  no_duplicates_ignoring_case l → no_duplicates_ignoring_case (filter P l).
Proof.
  unfold no_duplicates_ignoring_case.
  induction l as [|x l IH]; intros Hnd; [done|].
  rewrite fmap_cons, NoDup_cons in Hnd. destruct Hnd as [Hx Hnd].
  rewrite filter_cons. destruct (decide (P x)); [|by apply IH].
  rewrite fmap_cons, NoDup_cons. split; [|by apply IH].
  intros Hin. apply Hx. apply list_elem_of_fmap in Hin as (y & -> & Hy).
  apply list_elem_of_filter in Hy as [_ Hy]. by apply list_elem_of_fmap_2.
Qed.

Lemma no_duplicates_take (n : nat) (l : list string) :
  no_duplicates_ignoring_case l → no_duplicates_ignoring_case (take n l).
Proof.
  unfold no_duplicates_ignoring_case. rewrite fmap_take.
  intros Hnd. eapply sublist_NoDup; [exact Hnd|apply sublist_take].
Qed.

Lemma not_same_in_filter (k : string) (l : list string) :
  toLowerCase k ∉ toLowerCase <$> filter (λ t, ¬ same_ignoring_case t k) l.
Proof.
  intros Hin. apply list_elem_of_fmap in Hin as (y & Hk & Hy).
  apply list_elem_of_filter in Hy as [Hy _]. by apply Hy.
Qed.

Lemma latest_first_no_duplicates (used : list string) :
  no_duplicates_ignoring_case (latest_first used).
Proof.
  induction used as [|term earlier IH]; [constructor|].
  cbn [latest_first]. unfold no_duplicates_ignoring_case.
  rewrite fmap_cons, NoDup_cons. split.
  - apply not_same_in_filter.
  - by apply no_duplicates_filter.
Qed.

(** The recency order lists uses in the order they were made, the
    latest use of the whole list first, and leaves out no term. *)
Lemma latest_first_sublist (used : list string) :
  latest_first used `sublist_of` used.
Proof.
  induction used as [|term earlier IH]; [done|].
  cbn [latest_first]. apply sublist_skip.
  etrans; [apply sublist_filter|done].
Qed.

Lemma latest_first_head (term : string) (earlier : list string) :
  head (latest_first (term :: earlier)) = Some term.
Proof. done. Qed.

Lemma latest_first_covers (used : list string) (term : string) :
  term ∈ used →
  ∃ kept, kept ∈ latest_first used ∧ same_ignoring_case term kept.
Proof.
  induction used as [|latest earlier IH]; intros Hin; [by inversion Hin|].
  apply elem_of_cons in Hin as [->|Hin].
  - exists latest. split; [by left|done].
  - destruct (decide (same_ignoring_case term latest)) as [Hs|Hs].
    + exists latest. split; [by left|done].
    + destruct (IH Hin) as (kept & Hk & Hsame). exists kept.
      split; [|done]. cbn [latest_first]. right.
      apply list_elem_of_filter. split; [|done].
      unfold same_ignoring_case in *. congruence.
Qed.

(** Every state of the form [take 10 (latest_first used)] satisfies the
    whole invariant. *)
Lemma history_invariant_intro (used : list string) :
  history_invariant used (take MAX_HISTORY_ITEMS (latest_first used)).
Proof.
  split; [|split; [|done]].
  - apply no_duplicates_take, latest_first_no_duplicates.
  - rewrite length_take. lia.
Qed.

(** One [record] step on the list. *)
Lemma history_invariant_record (used h : list string) (term : string) :
  history_invariant used h →
  history_invariant (term :: used) (updatedHistory term h).
Proof.
  intros (_ & _ & ->).
  replace (updatedHistory term (take MAX_HISTORY_ITEMS (latest_first used)))
    with (take MAX_HISTORY_ITEMS (latest_first (term :: used)));
    [apply history_invariant_intro|].
  rewrite updatedHistory_cons. unfold MAX_HISTORY_ITEMS.
  cbn [latest_first take]. f_equal. symmetry.
  apply take_filter_take, latest_first_no_duplicates.
Qed.

Lemma history_invariant_empty : history_invariant [] [].
Proof. apply (history_invariant_intro []). Qed.

End Lists.

(** ** The History Manager: [record] and [clear] *)

Section HistoryClaims.
Context `{Runtime}.

Lemma run_cons (op : Operation) (ops : list Operation) (w : World) :
  run (op :: ops) w = run ops (exec (perform op) w).
Proof. done. Qed.

(** Each operation takes a state that satisfies the invariant for the
    uses so far to one that satisfies it for the uses after it. *)
Lemma perform_invariant (op : Operation) (w : World) (used h : list string) :
  history w = hist h → history_invariant used h →
  ∃ h', history (exec (perform op) w) = hist h'
        ∧ history_invariant (used_after used op) h'.
Proof.
  intros Hh Hinv. destruct op as [term|]; cbn [perform used_after].
  - destruct (decide (trim term = EmptyString)) as [E|E].
    + exists h. unfold exec. by rewrite updateSearchHistory_blank.
    + exists (updatedHistory (trim term) h). split.
      * by apply history_record.
      * by apply history_invariant_record.
  - exists []. split; [apply history_clear|apply history_invariant_empty].
Qed.

Lemma run_invariant (ops : list Operation) (w : World) (used h : list string) :
  history w = hist h → history_invariant used h →
  ∃ h', history (run ops w) = hist h'
        ∧ history_invariant (foldl used_after used ops) h'.
Proof.
  revert w used h. induction ops as [|op ops IH]; intros w used h Hh Hinv.
  - by exists h.
  - destruct (perform_invariant op w used h Hh Hinv) as (h1 & Hh1 & Hinv1).
    rewrite run_cons. cbn [foldl]. by apply (IH _ _ h1).
Qed.

(** C1.  Starting from the empty history, after any sequence of
    [record] and [clear] operations the history is a list of strings
    in which no two entries are equal ignoring case, of at most
    [MAX_HISTORY_ITEMS] = 10 entries, and ordered by recency of use:
    it is the first ten of the terms in use, latest use first. *)
Theorem search_history_invariant (ls : Storage) (ops : list Operation) :
  ∃ h, history (run ops (initialWorld ls)) = hist h
       ∧ no_duplicates_ignoring_case h
       ∧ length h ≤ 10
       ∧ h = take 10 (latest_first (uses ops)).
Proof.
  destruct (run_invariant ops (initialWorld ls) [] []) as (h & Hh & Hinv);
    [done|apply history_invariant_empty|].
  exists h. split; [done|]. exact Hinv.
Qed.

(** C5.  For every term [T] that is trimmed and not empty, and every
    history of strings, after [record(T)] the first entry is [T]
    itself, in the casing it was given. *)
Theorem record_puts_term_first (T : string) (w : World) (h : list string) :
  history w = hist h → trim T = T → T ≠ EmptyString →
  ∃ rest, history (exec (updateSearchHistory T) w) = hist (T :: rest).
Proof.
  intros Hh Htrim Hne.
  rewrite (history_record T w h) by (done || by rewrite Htrim).
  rewrite Htrim, updatedHistory_cons. eauto.
Qed.

(** Recording twice, on the list. *)
Lemma updatedHistory_again (t t' : string) (h : list string) :
  same_ignoring_case t' t →
  updatedHistory t' (updatedHistory t h)
  = t' :: take 9 (filter (λ x, ¬ same_ignoring_case x t) h).
Proof.
  intros Hs. rewrite !updatedHistory_cons.
  rewrite filter_cons_False by (intros Hn; by apply Hn).
  rewrite (list_filter_iff _ (λ x, ¬ same_ignoring_case x t)).
  - rewrite filter_none_same.
    + by rewrite take_take.
    + rewrite fmap_take. intros Hin.
      apply (not_same_in_filter t h).
      eapply elem_of_sublist; [done|apply sublist_take].
  - intros x. unfold same_ignoring_case in *. by rewrite Hs.
Qed.

(** C3, amended.  For every [T] and [T'] whose trimmed forms are not
    empty and are equal ignoring case, and every history of strings:
    [record(T)] then [record(T')] gives a history of the same length as
    [record(T)] alone, its first entry is the trimmed [T'], and no
    other entry equals it ignoring case. *)
Theorem record_again_no_growth (T T' : string) (w : World) (h : list string) :
  history w = hist h →
  trim T ≠ EmptyString → trim T' ≠ EmptyString →
  same_ignoring_case (trim T') (trim T) →
  ∃ h1 rest,
    history (run [record T] w) = hist h1
    ∧ history (run [record T; record T'] w) = hist (trim T' :: rest)
    ∧ length (trim T' :: rest) = length h1
    ∧ Forall (λ x, ¬ same_ignoring_case x (trim T')) rest.
Proof.
  intros Hh HT HT' Hs.
  pose proof (history_record T w h Hh HT) as H1.
  pose proof (history_record T' _ _ H1 HT') as H2.
  rewrite (updatedHistory_again _ _ _ Hs) in H2.
  exists (updatedHistory (trim T) h),
         (take 9 (filter (λ x, ¬ same_ignoring_case x (trim T)) h)).
  split; [exact H1|]. split; [exact H2|]. split.
  - by rewrite updatedHistory_cons.
  - apply Forall_take, Forall_forall. intros x Hx.
    apply list_elem_of_filter in Hx as [Hx _].
    unfold same_ignoring_case in *. by rewrite Hs.
Qed.

(** Any sequence of [record]s keeps a history of at most ten strings
    within the bound. *)
Lemma records_bounded (terms : list string) (w : World) (h : list string) :
  history w = hist h → length h ≤ MAX_HISTORY_ITEMS →
  ∃ h', history (run (record <$> terms) w) = hist h'
        ∧ length h' ≤ MAX_HISTORY_ITEMS.
Proof.
  revert w h. induction terms as [|term terms IH]; intros w h Hh Hlen.
  - by exists h.
  - rewrite fmap_cons, run_cons. cbn [perform].
    destruct (decide (trim term = EmptyString)) as [E|E].
    + unfold exec. rewrite updateSearchHistory_blank by done. by apply (IH w h).
    + apply (IH _ (updatedHistory (trim term) h)).
      * by apply history_record.
      * apply length_updatedHistory.
Qed.

(** C4.  From a history of at most ten strings, whatever terms are
    recorded the history has at most ten entries; and recording a term
    that equals none of the entries, ignoring case, into a history of
    exactly ten entries puts it first, drops the last (oldest) entry
    and keeps the other nine in their order. *)
Theorem history_bounded_oldest_evicted (w : World) (h : list string) :
  history w = hist h → length h ≤ 10 →
  (∀ terms : list string,
     ∃ h', history (run (record <$> terms) w) = hist h' ∧ length h' ≤ 10)
  ∧ (∀ (term oldest : string) (front : list string),
       h = (front ++ [oldest])%list → length h = 10 →
       trim term ≠ EmptyString →
       Forall (λ x, ¬ same_ignoring_case x (trim term)) h →
       history (exec (updateSearchHistory term) w)
       = hist (trim term :: front)).
Proof.
  intros Hh Hlen. split.
  - intros terms. by apply (records_bounded terms w h).
  - intros term oldest front -> Hten Hne Hall.
    rewrite (history_record term w _ Hh Hne), updatedHistory_cons.
    rewrite filter_none_same.
    + rewrite length_app in Hten. cbn in Hten.
      rewrite take_app_length' by lia. done.
    + intros Hin. apply list_elem_of_fmap in Hin as (y & Hy & Hin).
      rewrite Forall_forall in Hall. by apply (Hall y Hin).
Qed.

End HistoryClaims.

(** ** Blank terms, [clear], [load] and the search orchestration *)

Section OrchestrationClaims.
Context `{Runtime}.


Lemma loadHistory_run (w : World) :
  loadHistory w =
  (Normal tt,
   match stored_history w with
   | ReadFailed e | ParseFailed e =>
       exec (console_error
               "Failed to load search history from localStorage:" e;;
             setSearchHistory (hist [])) w
   | NothingStored => w
   | Parsed v => exec (setSearchHistory v) w
   end).
Proof.
  unfold loadHistory, stored_history. run_M.
  destruct (Storage_getItem _ _) as [[stored|]|e]; try done.
  destruct (decide _); [done|].
  by destruct (JSON_parse stored).
Qed.

(** C8.  The load effect always returns to its caller.  When reading
    the storage area or parsing what was read raises an exception, the
    history is the empty list and the exception is written to the
    console; nothing else changes: not the storage area, and not the
    cells the user sees (search term, results, loading flag, error
    message).  When a value was parsed it becomes the history, and
    when nothing is stored the world is as it was. *)
Theorem load_never_fails (w : World) :
  ∃ w', loadHistory w = (Normal tt, w')
    ∧ localStorage w' = localStorage w
    ∧ searchTerm (app w') = searchTerm (app w)
    ∧ translations (app w') = translations (app w)
    ∧ isLoading (app w') = isLoading (app w)
    ∧ error (app w') = error (app w)
    ∧ match stored_history w with
      | ReadFailed e | ParseFailed e =>
          history w' = hist []
          ∧ console w' =
            (console w
             ++ [("Failed to load search history from localStorage:", e)])%list
      | NothingStored => w' = w
      | Parsed v => history w' = v ∧ console w' = console w
      end.
Proof.
  eexists. split; [apply loadHistory_run|].
  destruct (stored_history w); run_M; done.
Qed.

(** C10.  Whatever non-empty text is stored under the history key, if
    [JSON.parse] accepts it then the parsed value, of any shape,
    becomes the history as it is; the load effect changes nothing
    else and checks nothing. *)
Theorem load_installs_parsed_value (w : World) (stored : string) (v : JSValue) :
  Storage_getItem LOCAL_STORAGE_HISTORY_KEY (localStorage w)
  = Normal (Some stored) →
  stored ≠ EmptyString →
  JSON_parse stored = Normal v →
  loadHistory w = (Normal tt, exec (setSearchHistory v) w)
  ∧ history (exec loadHistory w) = v.
Proof.
  intros Hget Hne Hparse.
  assert (stored_history w = Parsed v) as Hs.
  { unfold stored_history. rewrite Hget.
    destruct (decide _); [done|]. by rewrite Hparse. }
  unfold exec at 2. rewrite loadHistory_run, Hs. done.
Qed.

Lemma handleClearHistory_run (w : World) :
  handleClearHistory w =
  (Normal tt,
   {| app := {| searchTerm := searchTerm (app w);
                translations := translations (app w);
                isLoading := isLoading (app w);
                error := error (app w);
                searchHistory := hist [] |};
      localStorage :=
        if denied (localStorage w) then localStorage w
        else {| items := delete LOCAL_STORAGE_HISTORY_KEY
                           (items (localStorage w));
                denied := false; quota := quota (localStorage w) |};
      console :=
        if denied (localStorage w)
        then (console w
              ++ [("Failed to clear search history from localStorage:",
                   SecurityError)])%list
        else console w |}).
Proof.
  unfold handleClearHistory. run_M. unfold Storage_removeItem.
  by destruct (denied (localStorage w)) eqn:E.
Qed.

(** C7, amended.  [clear()] returns and leaves the empty history in
    the component, the other cells as they were.  When the storage
    area can be accessed, the item under the history key is removed and
    nothing is written to the console; [load()] after a restart then
    gives the empty history, whether or not the area can be accessed
    at that time.  When access is denied, the removal raises, the
    exception is caught and written to the console, and the storage
    area stays as it was, the stored history included; [load()] after
    a restart then gives the empty history only while access is still
    denied: once access is granted again it brings back what is
    stored. *)
Theorem clear_then_load (w : World) :
  ∃ w1, handleClearHistory w = (Normal tt, w1)
    ∧ app w1 = {| searchTerm := searchTerm (app w);
                  translations := translations (app w);
                  isLoading := isLoading (app w);
                  error := error (app w);
                  searchHistory := hist [] |}
    ∧ localStorage w1
      = (if denied (localStorage w) then localStorage w
         else {| items := delete LOCAL_STORAGE_HISTORY_KEY
                            (items (localStorage w));
                 denied := false; quota := quota (localStorage w) |})
    ∧ items (localStorage w1) !! LOCAL_STORAGE_HISTORY_KEY
      = (if denied (localStorage w)
         then items (localStorage w) !! LOCAL_STORAGE_HISTORY_KEY
         else None)
    ∧ console w1
      = (if denied (localStorage w)
         then (console w
               ++ [("Failed to clear search history from localStorage:",
                    SecurityError)])%list
         else console w)
    ∧ history (exec loadHistory (restart_with true w1)) = hist []
    ∧ history (exec loadHistory (restart_with false w1))
      = (if denied (localStorage w) then
           match items (localStorage w) !! LOCAL_STORAGE_HISTORY_KEY with
           | Some stored =>
               if decide (stored = EmptyString) then hist []
               else match JSON_parse stored with
                    | Normal v => v
                    | Throw _ => hist []
                    end
           | None => hist []
           end
         else hist []).
Proof.
  eexists. split; [apply handleClearHistory_run|].
  split; [done|]. split; [done|]. split; [|split; [done|split]].
  - cbn. destruct (denied (localStorage w)); [done|]. cbn.
    apply lookup_delete_eq.
  - unfold exec. rewrite loadHistory_run. by unfold stored_history.
  - unfold exec. rewrite loadHistory_run.
    unfold stored_history, restart_with, Storage_getItem.
    cbn [snd localStorage initialWorld denied items].
    destruct (denied (localStorage w)) eqn:E.
    + destruct (items (localStorage w) !! LOCAL_STORAGE_HISTORY_KEY)
        as [stored|]; [|done].
      destruct (decide _); [done|]. by destruct (JSON_parse stored).
    + cbn [items]. by rewrite lookup_delete_eq.
Qed.

Lemma search_run (term : string) (w : World) (h : list string)
    (outcome : Completion (list TranslationEntry)) :
  history w = hist h → trim term = term → term ≠ EmptyString →
  let w0 := exec (updateSearchHistory term) w in
  search term outcome w =
  (Normal tt,
   match outcome with
   | Normal [] => settled term (notFoundMessage term) h w0 []
   | Normal (entry :: more) =>
       {| app := {| searchTerm := term;
                    translations := Some (entry :: more);
                    isLoading := false;
                    error := None;
                    searchHistory := hist (updatedHistory term h) |};
          localStorage := localStorage w0;
          console := console w0 |}
   | Throw (ErrorObject name message) =>
       settled term message h w0
         [("Translation fetch error:", ErrorObject name message)]
   | Throw (ThrownValue v) =>
       settled term unknownErrorMessage h w0
         [("Translation fetch error:", ThrownValue v)]
   end).
Proof.
  intros Hh Htrim Hne w0. subst w0.
  assert (trim term ≠ EmptyString) as Hne' by (by rewrite Htrim).
  destruct (updateSearchHistory_typed term w h Hh Hne') as (ls & log & E).
  rewrite Htrim in E.
  unfold search, handleSearch, handleSearch_resume, settled.
  rewrite Htrim. destruct (decide (term = EmptyString)); [done|].
  run_M. rewrite E. cbn.
  destruct outcome as [[|entry more]|[name message|v]]; cbn;
    rewrite ?app_nil_r; done.
Qed.

(** C9, amended.  For a submitted term that is trimmed and not empty
    (and a history of strings), the search returns and the state it
    leaves is fixed by the provider's outcome.  An empty list of
    results leaves the message [No translation found for "term". Try
    another word.], no results, the loading flag off, and nothing
    written to the console by the search.  A thrown value that is an
    instance of [Error] leaves the message of that [Error] as it is,
    the empty message included.  Any thrown value that is not an
    instance of [Error], whether or not it carries a message, leaves
    the message [An unknown error occurred. Please ensure your API key
    is set up correctly.]  Both are written to the console. *)
Theorem search_outcome (term : string) (w : World) (h : list string) :
  history w = hist h → trim term = term → term ≠ EmptyString →
  let w0 := exec (updateSearchHistory term) w in
  search term (Normal []) w
  = (Normal tt,
     settled term
       ("No translation found for "
        ++ String "034" (term ++ String "034" ". Try another word."))
       h w0 [])
  ∧ (∀ name message,
       search term (Throw (ErrorObject name message)) w
       = (Normal tt,
          settled term message h w0
            [("Translation fetch error:", ErrorObject name message)]))
  ∧ (∀ v,
       search term (Throw (ThrownValue v)) w
       = (Normal tt,
          settled term
            "An unknown error occurred. Please ensure your API key is set up correctly."
            h w0
            [("Translation fetch error:", ThrownValue v)])).
Proof.
  intros Hh Htrim Hne w0. repeat split.
  - by apply (search_run term w h (Normal [])).
  - intros name message.
    by apply (search_run term w h (Throw (ErrorObject name message))).
  - intros v. by apply (search_run term w h (Throw (ThrownValue v))).
Qed.

End OrchestrationClaims.

(** A submission that is not blank does reach the provider: the
    function stops at [await fetchTranslations(trimmedTerm)]. *)
Lemma handleSearch_awaits `{Runtime} (term : string) (w : World)
    (h : list string) :
  history w = hist h → trim term ≠ EmptyString →
  fst (handleSearch term w)
  = Normal (Await_fetchTranslations (trim term)
              (handleSearch_resume (trim term))).
Proof.
  intros Hh Hne. unfold handleSearch.
  destruct (decide (trim term = EmptyString)); [done|]. run_M.
  destruct (decide (trim (trim term) = EmptyString)) as [E|E].
  - by rewrite updateSearchHistory_blank.
  - destruct (updateSearchHistory_typed (trim term) w h Hh E)
      as (ls & log & ->). done.
Qed.

(** ** White space in the Latin-1 library *)

Section Latin1Facts.

Lemma trimStart_blank (s : string) : Latin1.blank (Latin1.trimStart s) ↔ Latin1.blank s.
Proof.
  unfold Latin1.blank. induction s as [|c s IH]; [done|]. cbn.
  destruct (Latin1.isWhiteSpace c) eqn:E; [|done].
  rewrite IH, Forall_cons. tauto.
Qed.

Lemma trimEnd_blank (s : string) : Latin1.trimEnd s = EmptyString ↔ Latin1.blank s.
Proof.
  unfold Latin1.blank. induction s as [|c s IH]; [by split; [constructor|]|].
  cbn. rewrite Forall_cons, <- IH.
  destruct (Latin1.trimEnd s), (Latin1.isWhiteSpace c); split;
    (done || by intros []).
Qed.

(** [trim] leaves nothing exactly on the strings that are empty or
    made of white space only. *)
Lemma trim_blank (s : string) : Latin1.trim s = EmptyString ↔ Latin1.blank s.
Proof. unfold Latin1.trim. by rewrite trimEnd_blank, trimStart_blank. Qed.

End Latin1Facts.

(** ** Scenarios, on strings of Latin-1 code units *)

Section Scenarios.
#[local] Existing Instance Latin1.runtime.

(** One [record] of a term that is not blank, from a known history. *)
Ltac record_step h :=
  match goal with
  | |- history (exec (updateSearchHistory ?t) ?w) = _ =>
      rewrite (history_record t w h); [reflexivity| |vm_compute; discriminate]
  end.

Example latest_first_hello_World_HELLO :
  latest_first ["HELLO"; "World"; "hello"] = ["HELLO"; "World"].
Proof. vm_compute. reflexivity. Qed.

(** C2.  From the empty history, recording "hello", then "World", then
    "HELLO" gives exactly the history ["HELLO", "World"], whatever the
    storage area does. *)
Example record_hello_World_HELLO (ls : Storage) :
  history (run [record "hello"; record "World"; record "HELLO"]
             (initialWorld ls))
  = hist ["HELLO"; "World"].
Proof.
  rewrite !run_cons. cbn [run foldl perform].
  record_step ["World"; "hello"].
  record_step ["hello"].
  record_step (@nil string).
  reflexivity.
Qed.

(** The same scenario on an empty storage area: the item written under
    the history key is the JSON text of the final history. *)
Example persisted_after_hello_World_HELLO :
  items (localStorage
           (run [record "hello"; record "World"; record "HELLO"]
              (initialWorld emptyStorage)))
    !! LOCAL_STORAGE_HISTORY_KEY
  = Some (JSON_stringify (hist ["HELLO"; "World"]))
  ∧ history
      (exec loadHistory
         (restart (run [record "hello"; record "World"; record "HELLO"]
                     (initialWorld emptyStorage))))
    = hist ["HELLO"; "World"].
Proof. split; vm_compute; reflexivity. Qed.

(** C3 as it is written fails on the empty term: after recording the
    empty string twice the history is still empty, so its first entry
    is not the term.  It also fails on terms with white space around
    them: the first entry is the trimmed term. *)
Lemma record_again_blank_term :
  same_ignoring_case EmptyString EmptyString
  ∧ ¬ record_again_same_length EmptyString EmptyString
        (initialWorld emptyStorage)
  ∧ same_ignoring_case " A" " a"
  ∧ ¬ record_again_same_length " a" " A" (initialWorld emptyStorage).
Proof.
  split; [reflexivity|]. split; [|split; [reflexivity|]].
  - intros (h1 & h2 & _ & E2 & _ & Hhead).
    vm_compute in E2. injection E2 as <-. discriminate Hhead.
  - intros (h1 & h2 & _ & E2 & _ & Hhead).
    vm_compute in E2. injection E2 as <-. discriminate Hhead.
Qed.

Lemma record_again_no_growth_witness :
  ∃ h1 rest,
    history (run [record " hello"] (holding ["World"; "hello"]
                                      (initialWorld emptyStorage)))
    = hist h1
    ∧ history (run [record " hello"; record "HELLO "]
                 (holding ["World"; "hello"] (initialWorld emptyStorage)))
      = hist ("HELLO" :: rest)
    ∧ length ("HELLO" :: rest) = length h1
    ∧ Forall (λ x, ¬ same_ignoring_case x "HELLO") rest.
Proof.
  refine (record_again_no_growth " hello" "HELLO "
            (holding ["World"; "hello"] (initialWorld emptyStorage))
            ["World"; "hello"] _ _ _ _).
  - reflexivity.
  - vm_compute. discriminate.
  - vm_compute. discriminate.
  - reflexivity.
Defined.

Lemma history_bounded_oldest_evicted_witness :
  (∀ terms : list string,
     ∃ h', history (run (record <$> terms)
                      (holding tenTerms (initialWorld emptyStorage)))
           = hist h'
           ∧ length h' ≤ 10)
  ∧ history (exec (updateSearchHistory "K")
               (holding tenTerms (initialWorld emptyStorage)))
    = hist ["K"; "j"; "i"; "h"; "g"; "f"; "e"; "d"; "c"; "b"].
Proof.
  destruct (history_bounded_oldest_evicted
              (holding tenTerms (initialWorld emptyStorage)) tenTerms)
    as [Hbound Hevict].
  - reflexivity.
  - vm_compute. lia.
  - split; [exact Hbound|].
    apply (Hevict "K" "a" ["j"; "i"; "h"; "g"; "f"; "e"; "d"; "c"; "b"]).
    + reflexivity.
    + reflexivity.
    + vm_compute. discriminate.
    + repeat constructor; vm_compute; discriminate.
Defined.

Lemma record_puts_term_first_witness :
  ∃ rest,
    history (exec (updateSearchHistory "Hello")
               (holding ["World"; "hello"] (initialWorld emptyStorage)))
    = hist ("Hello" :: rest).
Proof.
  apply (record_puts_term_first "Hello"
           (holding ["World"; "hello"] (initialWorld emptyStorage))
           ["World"; "hello"]).
  - reflexivity.
  - reflexivity.
  - discriminate.
Defined.


(** C7 as it is written fails when access to the storage area is
    denied: [removeItem] raises, the exception is caught and logged,
    and the item stored under the history key stays. *)
Lemma clear_keeps_item_when_denied :
  items (localStorage
           (exec handleClearHistory
              (initialWorld (storing (JSON_stringify (hist ["hello"])) true))))
    !! LOCAL_STORAGE_HISTORY_KEY
  ≠ None.
Proof. vm_compute. discriminate. Qed.

Lemma search_outcome_witness :
  error (app (exec (search "xyzzy123" (Normal []))
                (initialWorld emptyStorage)))
  = Some ("No translation found for "
          ++ String "034" ("xyzzy123" ++ String "034" ". Try another word."))
  ∧ error (app (exec (search "xyzzy123"
                        (Throw (ErrorObject "Error" "API key not valid.")))
                  (initialWorld emptyStorage)))
    = Some "API key not valid."
  ∧ error (app (exec (search "xyzzy123" (Throw (ThrownValue JNull)))
                  (initialWorld emptyStorage)))
    = Some "An unknown error occurred. Please ensure your API key is set up correctly.".
Proof.
  destruct (search_outcome "xyzzy123" (initialWorld emptyStorage) [])
    as (E1 & E2 & E3).
  - reflexivity.
  - reflexivity.
  - discriminate.
  - unfold exec. rewrite E1, E2, E3. repeat split.
Defined.

(** C9 as it is written fails both ways.  A thrown [Error] that
    carries no message (its message is empty) does not get the generic
    message: the empty message is stored.  A thrown object that is not
    an [Error] but carries a message does not get its message shown:
    the generic message is stored. *)
Lemma fallback_follows_instanceof_not_message :
  error (app (exec (search "cat" (Throw (ErrorObject "Error" EmptyString)))
                (initialWorld emptyStorage)))
  = Some EmptyString
  ∧ error (app (exec (search "cat" (Throw (ErrorObject "Error" EmptyString)))
                  (initialWorld emptyStorage)))
    ≠ Some unknownErrorMessage
  ∧ error (app (exec (search "cat"
                        (Throw (ThrownValue
                                  (JObj [("message", JStr "rate limit")]))))
                  (initialWorld emptyStorage)))
    = Some unknownErrorMessage
  ∧ error (app (exec (search "cat"
                        (Throw (ThrownValue
                                  (JObj [("message", JStr "rate limit")]))))
                  (initialWorld emptyStorage)))
    ≠ Some "rate limit".
Proof. repeat split; vm_compute; discriminate. Qed.

(** With access denied during [clear()] and granted again at the next
    start, the history that was cleared is back. *)
Example cleared_history_returns_with_access :
  history
    (exec loadHistory
       (restart_with false
          (exec handleClearHistory
             (initialWorld (storing (JSON_stringify (hist ["hello"])) true)))))
  = hist ["hello"].
Proof. vm_compute. reflexivity. Qed.

(** Loads that leave a history which is not a list of strings, has
    eleven entries, or holds two entries equal ignoring case. *)
Lemma load_installs_parsed_value_witness :
  (history (exec loadHistory (initialWorld (storing "42" false))) = JNum 42
   ∧ entries (exec loadHistory (initialWorld (storing "42" false))) = None)
  ∧ (history (exec loadHistory
                (initialWorld
                   (storing (JSON_stringify (hist elevenTerms)) false)))
     = hist elevenTerms
     ∧ ¬ length elevenTerms ≤ MAX_HISTORY_ITEMS)
  ∧ (history (exec loadHistory
                (initialWorld
                   (storing (JSON_stringify (hist ["a"; "A"])) false)))
     = hist ["a"; "A"]
     ∧ ¬ no_duplicates_ignoring_case ["a"; "A"]).
Proof.
  split; [|split].
  - destruct (load_installs_parsed_value
                (initialWorld (storing "42" false)) "42" (JNum 42))
      as [_ E].
    + reflexivity.
    + discriminate.
    + reflexivity.
    + unfold entries. rewrite E. split; reflexivity.
  - destruct (load_installs_parsed_value
                (initialWorld
                   (storing (JSON_stringify (hist elevenTerms)) false))
                (JSON_stringify (hist elevenTerms)) (hist elevenTerms))
      as [_ E].
    + reflexivity.
    + vm_compute. discriminate.
    + vm_compute. reflexivity.
    + split; [exact E|]. vm_compute. lia.
  - destruct (load_installs_parsed_value
                (initialWorld
                   (storing (JSON_stringify (hist ["a"; "A"])) false))
                (JSON_stringify (hist ["a"; "A"])) (hist ["a"; "A"]))
      as [_ E].
    + reflexivity.
    + vm_compute. discriminate.
    + vm_compute. reflexivity.
    + split; [exact E|]. unfold no_duplicates_ignoring_case.
      intros Hnd. apply NoDup_cons in Hnd as [Hin _]. apply Hin.
      vm_compute. left.
Defined.

End Scenarios.

(** ** More on [updateSearchHistory]: what a record keeps *)

Section RecordFacts.
Context `{Runtime}.

Lemma updatedHistory_idempotent (t : string) (h : list string) :
  updatedHistory t (updatedHistory t h) = updatedHistory t h.
Proof.
  rewrite updatedHistory_again by done. by rewrite updatedHistory_cons.
Qed.

(** In a list without duplicates the entries equal to [t] ignoring
    case are at most one entry [x]; the others are all kept by the
    filter, in their order. *)
Lemma filter_removes_one (t x : string) (h : list string) :
  no_duplicates_ignoring_case h → x ∈ h → same_ignoring_case x t →
  h ≡ₚ x :: filter (λ y, ¬ same_ignoring_case y t) h.
Proof.
  unfold no_duplicates_ignoring_case.
  induction h as [|a h IH]; intros Hnd Hx Hs; [by inversion Hx|].
  rewrite fmap_cons, NoDup_cons in Hnd. destruct Hnd as [Ha Hnd].
  apply elem_of_cons in Hx as [->|Hx].
  - rewrite filter_cons_False by (by intros Hn; apply Hn).
    rewrite filter_none_same; [done|].
    unfold same_ignoring_case in Hs. by rewrite <- Hs.
  - assert (¬ same_ignoring_case a t) as Hat.
    { intros Hat. apply Ha. unfold same_ignoring_case in *.
      rewrite Hat, <- Hs. by apply list_elem_of_fmap_2. }
    rewrite filter_cons_True by done.
    rewrite (IH Hnd Hx Hs) at 1. apply Permutation_swap.
Qed.

Lemma updatedHistory_rest (t : string) (h : list string) :
  take 9 (filter (λ y, ¬ same_ignoring_case y t) h) `sublist_of` h.
Proof. etrans; [apply sublist_take|apply sublist_filter]. Qed.

Lemma updatedHistory_no_duplicates (t : string) (h : list string) :
  no_duplicates_ignoring_case h →
  no_duplicates_ignoring_case (updatedHistory t h).
Proof.
  intros Hnd. rewrite updatedHistory_cons.
  unfold no_duplicates_ignoring_case. rewrite fmap_cons, NoDup_cons. split.
  - rewrite fmap_take. intros Hin. apply (not_same_in_filter t h).
    eapply elem_of_sublist; [done|apply sublist_take].
  - by apply no_duplicates_take, no_duplicates_filter.
Qed.

(** X1.  Recording a term a second time changes nothing: for every
    term and every history of strings, [record(T)] twice leaves the
    same history as [record(T)] once. *)
Theorem record_idempotent (T : string) (w : World) (h : list string) :
  history w = hist h →
  history (run [record T; record T] w) = history (run [record T] w).
Proof.
  intros Hh. rewrite !run_cons. cbn [run foldl perform].
  destruct (decide (trim T = EmptyString)) as [E|E].
  - unfold exec. by rewrite !updateSearchHistory_blank.
  - pose proof (history_record T w h Hh E) as H1.
    rewrite (history_record T _ _ H1 E), H1.
    by rewrite updatedHistory_idempotent.
Qed.

(** X2.  Recording a term that the history already holds, in any
    casing, evicts nothing even when the history is full: in a history
    of at most ten strings without duplicates, the entry equal to the
    term ignoring case is replaced by the term at the front, and every
    other entry stays, in the same order. *)
Theorem record_known_term_moves_to_front
    (term x : string) (w : World) (h : list string) :
  history w = hist h → trim term ≠ EmptyString →
  no_duplicates_ignoring_case h → length h ≤ 10 →
  x ∈ h → same_ignoring_case x (trim term) →
  ∃ rest,
    history (exec (updateSearchHistory term) w) = hist (trim term :: rest)
    ∧ h ≡ₚ x :: rest
    ∧ rest `sublist_of` h.
Proof.
  intros Hh Hne Hnd Hlen Hx Hs.
  exists (filter (λ y, ¬ same_ignoring_case y (trim term)) h).
  pose proof (filter_removes_one _ _ _ Hnd Hx Hs) as Hperm.
  split; [|split; [done|apply sublist_filter]].
  rewrite (history_record term w h Hh Hne), updatedHistory_cons.
  rewrite take_ge; [done|].
  apply Permutation_length in Hperm. cbn in Hperm. lia.
Qed.

(** X3.  Below the capacity a new term only adds an entry: when the
    history holds fewer than ten strings, none equal to the term
    ignoring case, the new history is the term followed by the whole
    previous history. *)
Theorem record_new_term_below_capacity
    (term : string) (w : World) (h : list string) :
  history w = hist h → trim term ≠ EmptyString →
  length h < 10 →
  Forall (λ x, ¬ same_ignoring_case x (trim term)) h →
  history (exec (updateSearchHistory term) w) = hist (trim term :: h).
Proof.
  intros Hh Hne Hlen Hall.
  rewrite (history_record term w h Hh Hne), updatedHistory_cons.
  rewrite filter_none_same.
  - rewrite take_ge; [done|lia].
  - intros Hin. apply list_elem_of_fmap in Hin as (y & Hy & Hin).
    rewrite Forall_forall in Hall. by apply (Hall y Hin).
Qed.

(** X4.  Whatever strings the history holds, even more than ten or
    with duplicates (as a load can leave them), a record of a term that
    is not blank puts the trimmed term first, followed by entries of
    the previous history only, in their previous order, none of them
    equal to the term ignoring case; the result has at most ten
    entries; and a history without duplicates stays without
    duplicates. *)
Theorem record_keeps_order_and_distinctness
    (term : string) (w : World) (h : list string) :
  history w = hist h → trim term ≠ EmptyString →
  ∃ rest,
    history (exec (updateSearchHistory term) w) = hist (trim term :: rest)
    ∧ rest `sublist_of` h
    ∧ Forall (λ x, ¬ same_ignoring_case x (trim term)) rest
    ∧ length (trim term :: rest) ≤ 10
    ∧ (no_duplicates_ignoring_case h →
       no_duplicates_ignoring_case (trim term :: rest)).
Proof.
  intros Hh Hne.
  exists (take 9 (filter (λ y, ¬ same_ignoring_case y (trim term)) h)).
  rewrite <- updatedHistory_cons.
  split; [by apply history_record|].
  split; [apply updatedHistory_rest|]. split; [|split].
  - apply Forall_take, Forall_forall. intros y Hy.
    by apply list_elem_of_filter in Hy as [Hy _].
  - apply length_updatedHistory.
  - apply updatedHistory_no_duplicates.
Qed.

End RecordFacts.

(** ** Saving the history, and what the handlers leave alone *)

Section StorageFacts.
Context `{Runtime}.

Lemma same_but_history_refl (ls : Storage) : same_but_history ls ls.
Proof. by split; [|split]. Qed.

Lemma same_but_history_trans (ls1 ls2 ls3 : Storage) :
  same_but_history ls1 ls2 → same_but_history ls2 ls3 →
  same_but_history ls1 ls3.
Proof.
  intros (Hd1 & Hq1 & Hk1) (Hd2 & Hq2 & Hk2). split; [|split].
  - by rewrite Hd2.
  - by rewrite Hq2.
  - intros key Hkey. by rewrite Hk2, Hk1.
Qed.

Lemma Storage_setItem_same_but_history (value : string) (ls ls' : Storage) :
  Storage_setItem LOCAL_STORAGE_HISTORY_KEY value ls = Normal ls' →
  same_but_history ls ls'.
Proof.
  unfold Storage_setItem. destruct (denied ls) eqn:Hd; [done|].
  destruct (decide _); [|done]. intros [= <-]. split; [|split]; cbn.
  - done.
  - done.
  - intros key Hkey. by rewrite lookup_insert_ne.
Qed.

(** [updateSearchHistory] on a history of strings: the cells other
    than the history stay, and so does the storage area but for the
    history key. *)
Lemma updateSearchHistory_frame (term : string) (w : World) (h : list string) :
  history w = hist h →
  searchTerm (app (exec (updateSearchHistory term) w)) = searchTerm (app w)
  ∧ translations (app (exec (updateSearchHistory term) w))
    = translations (app w)
  ∧ isLoading (app (exec (updateSearchHistory term) w)) = isLoading (app w)
  ∧ error (app (exec (updateSearchHistory term) w)) = error (app w)
  ∧ same_but_history (localStorage w)
      (localStorage (exec (updateSearchHistory term) w)).
Proof.
  intros Hh. unfold updateSearchHistory.
  destruct (decide _); [by repeat split|].
  run_M. rewrite Hh, as_strings_hist.
  destruct (Storage_setItem _ _ _) as [ls|e] eqn:E; cbn.
  - repeat split; try done;
      by apply Storage_setItem_same_but_history in E as (? & ? & ?).
  - by repeat split.
Qed.

(** The rest of [handleSearch] after the provider's outcome, in any
    world. *)
Lemma handleSearch_resume_run (word : string)
    (outcome : Completion (list TranslationEntry)) (w : World) :
  handleSearch_resume word outcome w =
  (Normal tt,
   {| app := {| searchTerm := searchTerm (app w);
                translations :=
                  match outcome with
                  | Normal (entry :: more) => Some (entry :: more)
                  | _ => None
                  end;
                isLoading := false;
                error :=
                  match outcome with
                  | Normal [] => Some (notFoundMessage word)
                  | Normal (_ :: _) => error (app w)
                  | Throw (ErrorObject _ message) => Some message
                  | Throw (ThrownValue _) => Some unknownErrorMessage
                  end;
                searchHistory := searchHistory (app w) |};
      localStorage := localStorage w;
      console :=
        match outcome with
        | Normal _ => console w
        | Throw e => (console w ++ [("Translation fetch error:", e)])%list
        end |}).
Proof.
  unfold handleSearch_resume. run_M.
  by destruct outcome as [[|entry more]|[name message|v]].
Qed.

(** X5.  A save that fails is silent.  When access to the storage
    area is denied, or the new text does not fit in its quota, a
    record of a term that is not blank still returns and still updates
    the history in memory; the storage area is left as it was, and the
    exception is written to the console. *)
Theorem record_save_failure (term : string) (w : World) (h : list string) :
  history w = hist h → trim term ≠ EmptyString →
  denied (localStorage w) = true
  ∨ quota (localStorage w)
    < usage (<[LOCAL_STORAGE_HISTORY_KEY :=
                 JSON_stringify (hist (updatedHistory (trim term) h))]>
               (items (localStorage w))) →
  ∃ e,
    updateSearchHistory term w =
    (Normal tt,
     {| app := {| searchTerm := searchTerm (app w);
                  translations := translations (app w);
                  isLoading := isLoading (app w);
                  error := error (app w);
                  searchHistory := hist (updatedHistory (trim term) h) |};
        localStorage := localStorage w;
        console :=
          (console w
           ++ [("Failed to save search history to localStorage:", e)])%list
     |}).
Proof.
  intros Hh Hne Hfail.
  rewrite (updateSearchHistory_run term w h Hh Hne). cbn zeta.
  unfold Storage_setItem.
  destruct (denied (localStorage w)) eqn:Hd; [by eexists|].
  destruct Hfail as [?|Hq]; [done|].
  destruct (decide _) as [Hle|_]; [lia|by eexists].
Qed.

(** X6.  A saved history survives a restart.  When the storage area
    is accessible and the new text fits, and [JSON.parse] gives back
    the array that [JSON.stringify] was given, then after a record of
    a term that is not blank, a restart and the load effect bring back
    exactly the history that was in memory. *)
Theorem record_survives_restart (term : string) (w : World) (h : list string) :
  let updated := updatedHistory (trim term) h in
  let text := JSON_stringify (hist updated) in
  history w = hist h → trim term ≠ EmptyString →
  denied (localStorage w) = false →
  usage (<[LOCAL_STORAGE_HISTORY_KEY := text]> (items (localStorage w)))
  ≤ quota (localStorage w) →
  text ≠ EmptyString →
  JSON_parse text = Normal (hist updated) →
  history (exec loadHistory (restart (exec (updateSearchHistory term) w)))
  = history (exec (updateSearchHistory term) w).
Proof.
  intros updated text Hh Hne Hd Hq Htext Hparse.
  rewrite (history_record term w h Hh Hne).
  unfold exec at 2. rewrite (updateSearchHistory_run term w h Hh Hne).
  cbn zeta. fold updated. fold text.
  unfold Storage_setItem. rewrite Hd.
  destruct (decide _) as [_|Hn]; [|lia].
  unfold exec. rewrite loadHistory_run. unfold stored_history, restart.
  cbn [snd localStorage initialWorld]. unfold Storage_getItem. cbn.
  rewrite lookup_insert_eq.
  destruct (decide (text = EmptyString)); [done|]. by rewrite Hparse.
Qed.

(** X7.  The rest of a search never raises and never leaves the
    spinner on: whatever the provider's outcome and whatever the
    world, the continuation of [handleSearch] returns, the loading
    flag is off afterwards, and the search term, the history and the
    storage area are as they were. *)
Theorem resume_returns_and_clears_loading (word : string)
    (outcome : Completion (list TranslationEntry)) (w : World) :
  ∃ w', handleSearch_resume word outcome w = (Normal tt, w')
    ∧ isLoading (app w') = false
    ∧ searchTerm (app w') = searchTerm (app w)
    ∧ history w' = history w
    ∧ localStorage w' = localStorage w.
Proof. eexists. split; [apply handleSearch_resume_run|done]. Qed.

End StorageFacts.

(** ** The search from submission to display *)

Section SearchFacts.
Context `{Runtime}.

(** [handleSearch] on a blank term, in any world. *)
Lemma handleSearch_blank (term : string) (w : World) :
  trim term = EmptyString →
  handleSearch term w =
  (Normal Finished,
   {| app := {| searchTerm := searchTerm (app w);
                translations := None;
                isLoading := isLoading (app w);
                error := Some promptMessage;
                searchHistory := searchHistory (app w) |};
      localStorage := localStorage w;
      console := console w |}).
Proof.
  intros E. unfold handleSearch. rewrite E. by destruct (decide _).
Qed.

(** [handleSearch] on a history of strings and a term that is not
    blank: the whole world it leaves. *)
Lemma handleSearch_typed_run (term : string) (w : World) (h : list string) :
  history w = hist h → trim term ≠ EmptyString →
  handleSearch term w =
  (Normal (Await_fetchTranslations (trim term)
             (handleSearch_resume (trim term))),
   {| app := {| searchTerm := trim term;
                translations := None;
                isLoading := true;
                error := None;
                searchHistory :=
                  hist (if decide (trim (trim term) = EmptyString) then h
                        else updatedHistory (trim (trim term)) h) |};
      localStorage := localStorage (exec (updateSearchHistory (trim term)) w);
      console := console (exec (updateSearchHistory (trim term)) w) |}).
Proof.
  intros Hh Hne. unfold handleSearch.
  destruct (decide (trim term = EmptyString)); [done|]. run_M.
  destruct (decide (trim (trim term) = EmptyString)) as [E|E].
  - rewrite updateSearchHistory_blank by done. cbn. by rewrite Hh.
  - destruct (updateSearchHistory_typed (trim term) w h Hh E)
      as (ls & log & ->). done.
Qed.

(** [handleSearch] on a history of strings and a term that is not
    blank. *)
Lemma handleSearch_typed (term : string) (w : World) (h : list string) :
  history w = hist h → trim term ≠ EmptyString →
  ∃ ls log,
    handleSearch term w =
    (Normal (Await_fetchTranslations (trim term)
               (handleSearch_resume (trim term))),
     {| app := {| searchTerm := trim term;
                  translations := None;
                  isLoading := true;
                  error := None;
                  searchHistory :=
                    hist (if decide (trim (trim term) = EmptyString) then h
                          else updatedHistory (trim (trim term)) h) |};
        localStorage := ls; console := log |}).
Proof.
  intros Hh Hne. rewrite (handleSearch_typed_run term w h Hh Hne). eauto.
Qed.

Lemma truthy_notFoundMessage (term : string) :
  truthy (notFoundMessage term) = true.
Proof. done. Qed.

(** X8.  While the request is in flight only the spinner shows.  For
    a term that is not blank and whose trimmed form [trim] leaves as
    it is, on a history of strings, [handleSearch] awaits the provider
    on the trimmed term and leaves exactly this world: the trimmed term
    recorded in the history and stored as the search term, no error,
    no results, the loading flag on, and the storage area and the
    console as the record left them.  The main area then shows the
    spinner and nothing else. *)
Theorem handleSearch_enters_loading (term : string) (w : World)
    (h : list string) :
  history w = hist h → trim term ≠ EmptyString →
  trim (trim term) = trim term →
  ∃ w', handleSearch term w =
        (Normal (Await_fetchTranslations (trim term)
                   (handleSearch_resume (trim term))), w')
    ∧ w' = {| app := {| searchTerm := trim term;
                        translations := None;
                        isLoading := true;
                        error := None;
                        searchHistory :=
                          hist (updatedHistory (trim term) h) |};
              localStorage :=
                localStorage (exec (updateSearchHistory term) w);
              console := console (exec (updateSearchHistory term) w) |}
    ∧ renderMain (app w') = loadingView.
Proof.
  intros Hh Hne Hidem.
  rewrite (handleSearch_typed_run term w h Hh Hne).
  eexists. split; [done|]. split; [|done].
  assert (updateSearchHistory (trim term) = updateSearchHistory term)
    as ->.
  { unfold updateSearchHistory. by rewrite Hidem. }
  rewrite Hidem. by destruct (decide _).
Qed.

(** X9.  What the main area shows once a search has settled, for a
    trimmed term that is not empty on a history of strings: the results
    under the term when the provider returned entries; the not-found
    message when it returned none; the message of a thrown [Error]; the
    generic message for any other thrown value.  One case shows nothing
    at all: a thrown [Error] whose message is empty leaves the empty
    string in the error cell, which is falsy, so neither an error, nor
    results, nor the invitation is rendered. *)
Theorem settled_view (term : string) (w : World) (h : list string)
    (outcome : Completion (list TranslationEntry)) :
  history w = hist h → trim term = term → term ≠ EmptyString →
  renderMain (app (exec (search term outcome) w)) =
  match outcome with
  | Normal [] => errorView (notFoundMessage term)
  | Normal (entry :: more) => resultsView term (entry :: more)
  | Throw (ErrorObject _ message) =>
      if decide (message = EmptyString) then blankView else errorView message
  | Throw (ThrownValue _) => errorView unknownErrorMessage
  end.
Proof.
  intros Hh Htrim Hne. unfold exec.
  rewrite (search_run term w h outcome Hh Htrim Hne). cbn [snd].
  destruct outcome as [[|entry more]|[name message|v]];
    unfold renderMain, settled, errorView, resultsView, blankView, truthy;
    cbn [app error isLoading translations searchTerm negb andb];
    try done.
  by destruct (decide (message = EmptyString)),
       (decide (term = EmptyString)).
Qed.

End SearchFacts.

(** ** The running page *)

Section PageFacts.
Context `{Runtime}.

Lemma handleClearHistory_frame (w : World) :
  fst (handleClearHistory w) = Normal tt
  ∧ history (exec handleClearHistory w) = hist []
  ∧ searchTerm (app (exec handleClearHistory w)) = searchTerm (app w)
  ∧ same_but_history (localStorage w)
      (localStorage (exec handleClearHistory w)).
Proof.
  unfold exec. rewrite handleClearHistory_run. cbn.
  repeat split; try done; destruct (denied (localStorage w)) eqn:E; cbn;
    try done.
  intros key Hkey. by rewrite lookup_delete_ne.
Qed.

Lemma loadHistory_storage (w : World) :
  localStorage (exec loadHistory w) = localStorage w.
Proof.
  unfold exec. rewrite loadHistory_run. by destruct (stored_history w).
Qed.

Lemma suspended_searches_snoc (s : System) (w' : World) (word : string) :
  suspended_searches s →
  suspended_searches
    {| world := w'; pending := pending s ++ [handleSearch_resume word] |}.
Proof.
  unfold suspended_searches. cbn. intros Hs. apply Forall_app. split; [done|].
  apply Forall_singleton. by exists word.
Qed.

(** What every event leaves as it was, on a history of strings: the
    requests in flight are still suspended searches, the history is
    still a list of strings, the storage area is the same but for the
    history key, and a search term that is not empty stays so. *)
Lemma step_frame (s : System) (e : Event) (h : list string) :
  suspended_searches s → history (world s) = hist h →
  suspended_searches (step s e)
  ∧ (∃ h', history (world (step s e)) = hist h')
  ∧ same_but_history (localStorage (world s)) (localStorage (world (step s e)))
  ∧ (searchTerm (app (world s)) ≠ EmptyString →
     searchTerm (app (world (step s e))) ≠ EmptyString).
Proof.
  intros Hs Hh.
  assert (∀ term,
    suspended_searches (start (handleSearch term) s)
    ∧ (∃ h', history (world (start (handleSearch term) s)) = hist h')
    ∧ same_but_history (localStorage (world s))
        (localStorage (world (start (handleSearch term) s)))
    ∧ (searchTerm (app (world s)) ≠ EmptyString →
       searchTerm (app (world (start (handleSearch term) s))) ≠ EmptyString))
    as Hsearch.
  { intros term. unfold start.
    destruct (decide (trim term = EmptyString)) as [E|E].
    - rewrite (handleSearch_blank term (world s) E). cbn [world].
      split; [done|]. split; [by exists h|].
      split; [apply same_but_history_refl|done].
    - rewrite (handleSearch_typed_run term (world s) h Hh E). cbn [world].
      split; [by apply suspended_searches_snoc|].
      split; [by eexists|].
      split; [|done]. by apply (updateSearchHistory_frame _ _ h). }
  destruct e as [term|term| |i outcome]; cbn [step].
  - apply Hsearch.
  - apply Hsearch.
  - destruct (handleClearHistory_frame (world s)) as (_ & Hc & Ht & Hls).
    cbn [world]. split; [done|]. split; [by exists []|].
    split; [done|]. by rewrite Ht.
  - destruct (pending s !! i) as [resume|] eqn:Hi.
    + pose proof Hs as Hall. unfold suspended_searches in Hall.
      rewrite Forall_lookup in Hall. destruct (Hall i resume Hi) as [word ->].
      unfold exec. rewrite handleSearch_resume_run. cbn.
      split; [by apply Forall_delete|]. split; [by exists h|].
      split; [apply same_but_history_refl|done].
    + split; [done|]. split; [by exists h|].
      split; [apply same_but_history_refl|done].
Qed.

Lemma play_frame (events : list Event) (s : System) (h : list string) :
  suspended_searches s → history (world s) = hist h →
  suspended_searches (play events s)
  ∧ same_but_history (localStorage (world s))
      (localStorage (world (play events s)))
  ∧ (searchTerm (app (world s)) ≠ EmptyString →
     searchTerm (app (world (play events s))) ≠ EmptyString).
Proof.
  revert s h. induction events as [|e events IH]; intros s h Hs Hh.
  - split; [done|]. split; [apply same_but_history_refl|done].
  - destruct (step_frame s e h Hs Hh) as (Hs1 & [h1 Hh1] & Hls1 & Ht1).
    destruct (IH (step s e) h1 Hs1 Hh1) as (Hs2 & Hls2 & Ht2).
    cbn [play foldl]. split; [done|]. split; [|by auto].
    by apply (same_but_history_trans _ _ _ Hls1).
Qed.

(** X10.  The page only ever writes under its own key.  When the
    load effect leaves a history of strings, then from the first render
    on, whatever the user does and however the provider answers, in
    any order, every item of the storage area under another key is as
    it was, and so are the limits of the area. *)
Theorem page_keeps_other_items (ls : Storage) (events : list Event)
    (h : list string) :
  history (world (mounted ls)) = hist h →
  same_but_history ls (localStorage (world (play events (mounted ls)))).
Proof.
  intros Hh.
  destruct (play_frame events (mounted ls) h) as (_ & Hls & _);
    [by apply Forall_nil|done|].
  unfold mounted in Hls at 1. cbn [world] in Hls.
  by rewrite loadHistory_storage in Hls.
Qed.

(** X11.  The invitation to enter a word never comes back.  On a
    history of strings, once the search term cell holds a term, no
    handler and no answer of the provider empties it again, clearing
    the history included, so the invitation is not rendered any
    more. *)
Theorem intro_never_shown_again (events : list Event) (s : System)
    (h : list string) :
  suspended_searches s → history (world s) = hist h →
  searchTerm (app (world s)) ≠ EmptyString →
  searchTerm (app (world (play events s))) ≠ EmptyString
  ∧ introPanel (renderMain (app (world (play events s)))) = false.
Proof.
  intros Hs Hh Ht.
  destruct (play_frame events s h Hs Hh) as (_ & _ & Hterm).
  specialize (Hterm Ht). split; [done|].
  unfold renderMain, truthy. cbn.
  destruct (decide _); [done|]. by rewrite !andb_false_r.
Qed.

Lemma valid_history_updated (term : string) (w w' : World) (h : list string) :
  no_duplicates_ignoring_case h →
  history w' = hist (updatedHistory term h) → valid_history w'.
Proof.
  intros Hnd Hh. exists (updatedHistory term h). split; [done|]. split.
  - by apply updatedHistory_no_duplicates.
  - apply length_updatedHistory.
Qed.

Lemma step_valid (s : System) (e : Event) :
  suspended_searches s → valid_history (world s) →
  completes s e ∧ valid_history (world (step s e)).
Proof.
  intros Hs (h & Hh & Hnd & Hlen).
  assert (∀ term,
    (∃ a, fst (handleSearch term (world s)) = Normal a)
    ∧ valid_history (world (start (handleSearch term) s))) as Hsearch.
  { intros term. unfold start.
    destruct (decide (trim term = EmptyString)) as [E|E].
    - rewrite (handleSearch_blank term (world s) E).
      split; [eexists; reflexivity|]. exists h. by repeat split.
    - destruct (handleSearch_typed term (world s) h Hh E) as (ls & log & ->).
      split; [eexists; reflexivity|]. cbn [world].
      destruct (decide (trim (trim term) = EmptyString)).
      + exists h. by repeat split.
      + by apply (valid_history_updated (trim (trim term)) (world s) _ h). }
  destruct e as [term|term| |i outcome]; cbn [step completes].
  - apply Hsearch.
  - apply Hsearch.
  - destruct (handleClearHistory_frame (world s)) as (Hc & Hh' & _).
    split; [done|]. exists []. split; [done|].
    split; [constructor|cbn; unfold MAX_HISTORY_ITEMS; lia].
  - destruct (pending s !! i) as [resume|] eqn:Hi.
    + unfold suspended_searches in Hs. rewrite Forall_lookup in Hs.
      destruct (Hs i resume Hi) as [word ->].
      unfold exec. rewrite handleSearch_resume_run. cbn.
      split; [done|]. exists h. by repeat split.
    + split; [done|]. exists h. by repeat split.
Qed.

(** X12.  On a history of strings within the invariant nothing ever
    raises and the invariant is kept.  From a page whose history is an
    array of at most ten strings without duplicates ignoring case,
    whatever the user does (search, click on an entry, clear) and
    however the provider answers the requests in flight, in any
    order, every handler returns to its caller and the history is
    again such an array. *)
Theorem page_keeps_valid_history (events : list Event) (s : System) :
  suspended_searches s → valid_history (world s) →
  all_complete events s ∧ valid_history (world (play events s)).
Proof.
  revert s. induction events as [|e events IH]; intros s Hs Hv; [done|].
  destruct (step_valid s e Hs Hv) as [Hc Hv1].
  destruct Hv as (h & Hh & _).
  destruct (step_frame s e h Hs Hh) as (Hs1 & _).
  destruct (IH (step s e) Hs1 Hv1) as [Hall Hv2].
  cbn [all_complete play foldl]. by repeat split.
Qed.

Lemma step_Search_typed (s : System) (term : string) (h : list string) :
  history (world s) = hist h → trim term ≠ EmptyString →
  ∃ ls log,
    step s (Search term) =
    {| world :=
         {| app := {| searchTerm := trim term;
                      translations := None;
                      isLoading := true;
                      error := None;
                      searchHistory :=
                        hist (if decide (trim (trim term) = EmptyString)
                              then h
                              else updatedHistory (trim (trim term)) h) |};
            localStorage := ls; console := log |};
       pending := pending s ++ [handleSearch_resume (trim term)] |}.
Proof.
  intros Hh Hne. cbn [step]. unfold start.
  destruct (handleSearch_typed term (world s) h Hh Hne) as (ls & log & ->).
  by exists ls, log.
Qed.

Lemma step_Search_blank (s : System) (term : string) :
  trim term = EmptyString →
  step s (Search term) =
  {| world :=
       {| app := {| searchTerm := searchTerm (app (world s));
                    translations := None;
                    isLoading := isLoading (app (world s));
                    error := Some promptMessage;
                    searchHistory := searchHistory (app (world s)) |};
          localStorage := localStorage (world s);
          console := console (world s) |};
     pending := pending s |}.
Proof.
  intros E. cbn [step]. unfold start.
  by rewrite (handleSearch_blank term (world s) E).
Qed.

Lemma step_Settle (s : System) (i : nat) (word : string)
    (outcome : Completion (list TranslationEntry)) :
  pending s !! i = Some (handleSearch_resume word) →
  step s (Settle i outcome) =
  {| world := snd (handleSearch_resume word outcome (world s));
     pending := delete i (pending s) |}.
Proof. intros Hi. cbn [step]. by rewrite Hi. Qed.

(** X13.  A late answer is shown under the newer term.  When a second
    search is submitted while the first is in flight, and the provider
    answers the second and then the first, both with entries, the main
    area shows the entries of the first search under the term of the
    second. *)
Theorem late_answer_shown_under_new_term
    (a b : string) (ra rb : list TranslationEntry)
    (w : World) (h : list string) :
  history w = hist h →
  trim a ≠ EmptyString → trim b ≠ EmptyString →
  ra ≠ [] → rb ≠ [] →
  renderMain
    (app (world (play [Search a; Search b;
                       Settle 1 (Normal rb); Settle 0 (Normal ra)]
                   {| world := w; pending := [] |})))
  = resultsView (trim b) ra.
Proof.
  intros Hh Ha Hb Hra Hrb.
  destruct ra as [|ea ra]; [done|]. destruct rb as [|eb rb]; [done|].
  unfold play. cbn [foldl].
  destruct (step_Search_typed {| world := w; pending := [] |} a h Hh Ha)
    as (ls1 & log1 & ->).
  match goal with
  | |- context [step ?s1 (Search b)] =>
      destruct (step_Search_typed s1 b _ eq_refl Hb) as (ls2 & log2 & ->)
  end.
  rewrite (step_Settle _ 1 (trim b)) by done.
  rewrite (step_Settle _ 0 (trim a)) by done.
  by rewrite !handleSearch_resume_run.
Qed.

(** X14.  A blank submission while a search is in flight hides its
    answer.  The blank submission sets the prompt message and leaves
    the spinner on; the success path of the search in flight does not
    clear the error cell, so when the provider answers with entries
    they are stored but the main area shows the prompt message, not the
    results. *)
Theorem blank_submission_hides_answer
    (a blank : string) (ra : list TranslationEntry)
    (w : World) (h : list string) :
  history w = hist h →
  trim a ≠ EmptyString → trim blank = EmptyString → ra ≠ [] →
  let s1 := play [Search a; Search blank] {| world := w; pending := [] |} in
  let s2 := step s1 (Settle 0 (Normal ra)) in
  spinner (renderMain (app (world s1))) = true
  ∧ errorPanel (renderMain (app (world s1))) = Some promptMessage
  ∧ translations (app (world s2)) = Some ra
  ∧ renderMain (app (world s2)) = errorView promptMessage.
Proof.
  intros Hh Ha Hblank Hra s1 s2. subst s2 s1.
  destruct ra as [|ea ra]; [done|].
  unfold play. cbn [foldl].
  destruct (step_Search_typed {| world := w; pending := [] |} a h Hh Ha)
    as (ls1 & log1 & ->).
  rewrite (step_Search_blank _ blank Hblank).
  rewrite (step_Settle _ 0 (trim a)) by done.
  by rewrite !handleSearch_resume_run.
Qed.

(** X15.  A click on an entry of the history searches for it again
    and moves it to the front.  For an entry of a history of at most
    ten strings without duplicates, that is trimmed and not empty,
    [handleHistoryItemClick] awaits the provider on that entry with
    the spinner on, and the history holds the same entries as before,
    the clicked one first and the others in their order. *)
Theorem history_item_click (x : string) (w : World) (h : list string) :
  history w = hist h →
  no_duplicates_ignoring_case h → length h ≤ 10 →
  x ∈ h → trim x = x → x ≠ EmptyString →
  ∃ w' rest,
    handleHistoryItemClick x w =
    (Normal (Await_fetchTranslations x (handleSearch_resume x)), w')
    ∧ isLoading (app w') = true
    ∧ history w' = hist (x :: rest)
    ∧ h ≡ₚ x :: rest
    ∧ rest `sublist_of` h.
Proof.
  intros Hh Hnd Hlen Hx Htrim Hne.
  assert (trim x ≠ EmptyString) as Hne' by (by rewrite Htrim).
  destruct (handleSearch_typed x w h Hh Hne') as (ls & log & E).
  rewrite !Htrim in E. destruct (decide (x = EmptyString)); [done|].
  pose proof (filter_removes_one x x h Hnd Hx eq_refl) as Hperm.
  eexists. exists (filter (λ y, ¬ same_ignoring_case y x) h).
  split; [exact E|]. split; [done|]. split; [|split; [done|]].
  - unfold history. cbn [app searchHistory].
    rewrite updatedHistory_cons, take_ge; [done|].
    apply Permutation_length in Hperm. cbn in Hperm. lia.
  - apply sublist_filter.
Qed.

End PageFacts.

(** ** More scenarios, on strings of Latin-1 code units *)

Section MoreScenarios.
#[local] Existing Instance Latin1.runtime.

Lemma record_idempotent_witness :
  history (run [record " Hello "; record " Hello "]
             (holding ["World"; "hello"] (initialWorld emptyStorage)))
  = history (run [record " Hello "]
               (holding ["World"; "hello"] (initialWorld emptyStorage))).
Proof.
  refine (record_idempotent " Hello "
            (holding ["World"; "hello"] (initialWorld emptyStorage))
            ["World"; "hello"] _).
  reflexivity.
Defined.

Lemma record_known_term_moves_to_front_witness :
  ∃ rest,
    history (exec (updateSearchHistory "E")
               (holding tenTerms (initialWorld emptyStorage)))
    = hist ("E" :: rest)
    ∧ tenTerms ≡ₚ "e" :: rest
    ∧ rest `sublist_of` tenTerms.
Proof.
  refine (record_known_term_moves_to_front "E" "e"
            (holding tenTerms (initialWorld emptyStorage)) tenTerms
            _ _ _ _ _ _).
  - reflexivity.
  - vm_compute. discriminate.
  - unfold no_duplicates_ignoring_case. apply NoDup_ListNoDup.
    vm_compute. repeat (constructor; [cbn; intuition discriminate|]).
    constructor.
  - vm_compute. lia.
  - repeat (first [by left | right]).
  - reflexivity.
Defined.

Lemma record_new_term_below_capacity_witness :
  history (exec (updateSearchHistory "Moon")
             (holding ["World"; "hello"] (initialWorld emptyStorage)))
  = hist ["Moon"; "World"; "hello"].
Proof.
  refine (record_new_term_below_capacity "Moon"
            (holding ["World"; "hello"] (initialWorld emptyStorage))
            ["World"; "hello"] _ _ _ _).
  - reflexivity.
  - vm_compute. discriminate.
  - vm_compute. lia.
  - repeat constructor; vm_compute; discriminate.
Defined.

Lemma record_keeps_order_and_distinctness_witness :
  ∃ rest,
    history (exec (updateSearchHistory "B")
               (holding elevenTerms (initialWorld emptyStorage)))
    = hist ("B" :: rest)
    ∧ rest `sublist_of` elevenTerms
    ∧ Forall (λ x, ¬ same_ignoring_case x "B") rest
    ∧ length ("B" :: rest) ≤ 10
    ∧ (no_duplicates_ignoring_case elevenTerms →
       no_duplicates_ignoring_case ("B" :: rest)).
Proof.
  refine (record_keeps_order_and_distinctness "B"
            (holding elevenTerms (initialWorld emptyStorage)) elevenTerms
            _ _).
  - reflexivity.
  - vm_compute. discriminate.
Defined.

Lemma record_save_failure_witness :
  ∃ e,
    updateSearchHistory "hello" (initialWorld fullStorage) =
    (Normal tt,
     {| app := {| searchTerm := EmptyString;
                  translations := None;
                  isLoading := false;
                  error := None;
                  searchHistory := hist (updatedHistory "hello" []) |};
        localStorage := fullStorage;
        console :=
          [("Failed to save search history to localStorage:", e)] |}).
Proof.
  refine (record_save_failure "hello" (initialWorld fullStorage) [] _ _ _).
  - reflexivity.
  - vm_compute. discriminate.
  - right. vm_compute. lia.
Defined.

Lemma record_survives_restart_witness :
  history (exec loadHistory
             (restart (exec (updateSearchHistory "hello")
                         (holding ["World"] (initialWorld emptyStorage)))))
  = history (exec (updateSearchHistory "hello")
               (holding ["World"] (initialWorld emptyStorage))).
Proof.
  refine (record_survives_restart "hello"
            (holding ["World"] (initialWorld emptyStorage)) ["World"]
            _ _ _ _ _ _).
  - reflexivity.
  - vm_compute. discriminate.
  - reflexivity.
  - vm_compute. lia.
  - vm_compute. discriminate.
  - vm_compute. reflexivity.
Defined.

Lemma handleSearch_enters_loading_witness :
  ∃ w', handleSearch "  cat " (initialWorld emptyStorage) =
        (Normal (Await_fetchTranslations "cat" (handleSearch_resume "cat")),
         w')
    ∧ w' = {| app := {| searchTerm := "cat";
                        translations := None;
                        isLoading := true;
                        error := None;
                        searchHistory := hist (updatedHistory "cat" []) |};
              localStorage :=
                localStorage (exec (updateSearchHistory "  cat ")
                                (initialWorld emptyStorage));
              console :=
                console (exec (updateSearchHistory "  cat ")
                           (initialWorld emptyStorage)) |}
    ∧ renderMain (app w') = loadingView.
Proof.
  refine (handleSearch_enters_loading "  cat " (initialWorld emptyStorage) []
            _ _ _).
  - reflexivity.
  - vm_compute. discriminate.
  - reflexivity.
Defined.

Lemma settled_view_witness :
  renderMain (app (exec (search "cat" (Throw (ErrorObject "Error" EmptyString)))
                     (initialWorld emptyStorage)))
  = blankView
  ∧ renderMain (app (exec (search "cat" (Normal [sampleEntry]))
                       (initialWorld emptyStorage)))
    = resultsView "cat" [sampleEntry].
Proof.
  split.
  - refine (settled_view "cat" (initialWorld emptyStorage) []
              (Throw (ErrorObject "Error" EmptyString)) _ _ _).
    + reflexivity.
    + reflexivity.
    + discriminate.
  - refine (settled_view "cat" (initialWorld emptyStorage) []
              (Normal [sampleEntry]) _ _ _).
    + reflexivity.
    + reflexivity.
    + discriminate.
Defined.

Lemma page_keeps_other_items_witness :
  same_but_history sharedStorage
    (localStorage
       (world (play [Search "cat"; Search "dog"; Settle 1 (Normal []);
                     ClearHistory; HistoryItemClick "cat";
                     Settle 0 (Throw (ThrownValue JNull))]
                 (mounted sharedStorage)))).
Proof.
  refine (page_keeps_other_items sharedStorage _ [] _).
  vm_compute. reflexivity.
Defined.

Lemma intro_never_shown_again_witness :
  searchTerm
    (app (world (play [ClearHistory; Search "   "; Settle 0 (Normal [])]
                   (play [Search "cat"]
                      {| world := initialWorld emptyStorage;
                         pending := [] |}))))
  ≠ EmptyString
  ∧ introPanel
      (renderMain
         (app (world (play [ClearHistory; Search "   "; Settle 0 (Normal [])]
                        (play [Search "cat"]
                           {| world := initialWorld emptyStorage;
                              pending := [] |})))))
    = false.
Proof.
  refine (intro_never_shown_again
            [ClearHistory; Search "   "; Settle 0 (Normal [])]
            (play [Search "cat"]
               {| world := initialWorld emptyStorage; pending := [] |})
            ["cat"] _ _ _).
  - apply Forall_singleton. by exists "cat".
  - vm_compute. reflexivity.
  - vm_compute. discriminate.
Defined.

Lemma page_keeps_valid_history_witness :
  all_complete
    [Search "cat"; Search " Dog"; Settle 0 (Normal []); HistoryItemClick "cat";
     ClearHistory; Settle 0 (Throw (ThrownValue JNull)); Search "CAT"]
    {| world := holding tenTerms (initialWorld emptyStorage); pending := [] |}
  ∧ valid_history
      (world
         (play
            [Search "cat"; Search " Dog"; Settle 0 (Normal []);
             HistoryItemClick "cat"; ClearHistory;
             Settle 0 (Throw (ThrownValue JNull)); Search "CAT"]
            {| world := holding tenTerms (initialWorld emptyStorage);
               pending := [] |})).
Proof.
  refine (page_keeps_valid_history _ _ _ _).
  - apply Forall_nil. done.
  - exists tenTerms. split; [reflexivity|]. split; [|vm_compute; lia].
    unfold no_duplicates_ignoring_case. apply NoDup_ListNoDup.
    vm_compute. repeat (constructor; [cbn; intuition discriminate|]).
    constructor.
Defined.

Lemma late_answer_shown_under_new_term_witness :
  renderMain
    (app (world (play [Search "cat"; Search "dog";
                       Settle 1 (Normal [sampleEntry; sampleEntry]);
                       Settle 0 (Normal [sampleEntry])]
                   {| world := initialWorld emptyStorage; pending := [] |})))
  = resultsView "dog" [sampleEntry].
Proof.
  refine (late_answer_shown_under_new_term "cat" "dog"
            [sampleEntry] [sampleEntry; sampleEntry]
            (initialWorld emptyStorage) [] _ _ _ _ _).
  - reflexivity.
  - vm_compute. discriminate.
  - vm_compute. discriminate.
  - discriminate.
  - discriminate.
Defined.

Lemma blank_submission_hides_answer_witness :
  let s1 := play [Search "cat"; Search "  "]
              {| world := initialWorld emptyStorage; pending := [] |} in
  let s2 := step s1 (Settle 0 (Normal [sampleEntry])) in
  spinner (renderMain (app (world s1))) = true
  ∧ errorPanel (renderMain (app (world s1))) = Some promptMessage
  ∧ translations (app (world s2)) = Some [sampleEntry]
  ∧ renderMain (app (world s2)) = errorView promptMessage.
Proof.
  refine (blank_submission_hides_answer "cat" "  " [sampleEntry]
            (initialWorld emptyStorage) [] _ _ _ _).
  - reflexivity.
  - vm_compute. discriminate.
  - reflexivity.
  - discriminate.
Defined.

Lemma history_item_click_witness :
  ∃ w' rest,
    handleHistoryItemClick "e" (holding tenTerms (initialWorld emptyStorage)) =
    (Normal (Await_fetchTranslations "e" (handleSearch_resume "e")), w')
    ∧ isLoading (app w') = true
    ∧ history w' = hist ("e" :: rest)
    ∧ tenTerms ≡ₚ "e" :: rest
    ∧ rest `sublist_of` tenTerms.
Proof.
  refine (history_item_click "e"
            (holding tenTerms (initialWorld emptyStorage)) tenTerms
            _ _ _ _ _ _).
  - reflexivity.
  - unfold no_duplicates_ignoring_case. apply NoDup_ListNoDup.
    vm_compute. repeat (constructor; [cbn; intuition discriminate|]).
    constructor.
  - vm_compute. lia.
  - repeat (first [by left | right]).
  - reflexivity.
  - discriminate.
Defined.

End MoreScenarios.
